(** * UNET_script.py: the evaluation script of UNET-Segmentation

    A shallow embedding of [generate_output] (src/src/UNET_script.py) and of
    the library calls it is made of.  The script is an orchestration of
    MONAI, PyTorch, ignite and matplotlib; each library operation the script
    invokes is written out here as the function the library documents, with
    the arguments the script passes, and is named after the library symbol.

    Conventions:
    - a tensor is a shape together with a total function from index lists to
      elements; only in-range indices are meaningful;
    - floating point values are idealised as rationals ([Q]);
    - what the script leaves to the outside world (files, trained weights,
      the function computed by the network, the random state, the
      transcendental activations, ignite's precision and recall) is a
      parameter. *)

From Stdlib Require Import QArith Qminmax Lqa Ascii DecimalString.
From stdpp Require Import base option list strings gmap.

(** ** Tensors *)

Definition index := list nat.

Record tensor (A : Type) := mkTensor {
  shape : list nat;
  data : index -> A
}.
Arguments mkTensor {A} _ _.
Arguments shape {A} _.
Arguments data {A} _ _.

Definition tmap {A B} (f : A -> B) (t : tensor A) : tensor B :=
  mkTensor (shape t) (fun i => f (data t i)).

(** [t[b]]: the sub-tensor at position [b] of the leading axis. *)
Definition select0 {A} (b : nat) (t : tensor A) : tensor A :=
  mkTensor (tail (shape t)) (fun i => data t (b :: i)).

(** [t[None]]: a new leading axis of extent 1. *)
Definition unsqueeze0 {A} (t : tensor A) : tensor A :=
  mkTensor (1 :: shape t) (fun i => data t (tail i)).

(** All indices of an array of shape [sh], in row-major order. *)
Fixpoint indices (sh : list nat) : list index :=
  match sh with
  | [] => [[]]
  | d :: sh' => b ← seq 0 d; (fun i => b :: i) <$> indices sh'
  end.

(** ** The random state of MONAI's randomizable transforms

    A random state is the stream of raw draws it will deliver;
    [randint lo hi] consumes one draw and returns a value of [lo, hi). *)

Definition rng := list nat.

Definition randint (lo hi : nat) (R : rng) : nat * rng :=
  match R with
  | [] => (lo, [])
  | r :: R' => (lo + r mod (hi - lo), R')
  end.

Fixpoint randints (bounds : list (nat * nat)) (R : rng) : list nat * rng :=
  match bounds with
  | [] => ([], R)
  | (lo, hi) :: bs =>
      let '(x, R1) := randint lo hi R in
      let '(xs, R2) := randints bs R1 in
      (x :: xs, R2)
  end.

(** ** Volumes on disk and MONAI's MetaTensor

    A NIfTI file holds a 3-D array and an affine.  Of the affine only its
    orientation matters to the script: for every array axis, the world axis
    (0 = left-right, 1 = posterior-anterior, 2 = inferior-superior) it runs
    along, and whether it runs against the positive (R, A, S) direction.
    This is what nibabel's [io_orientation] extracts. *)

Definition ornt := list (nat * bool).

Record Nifti := mkNifti {
  nii_dims : nat * nat * nat;
  nii_ornt : ornt;
  nii_data : index -> Q
}.

Definition nii_shape (f : Nifti) : list nat :=
  let '(x, y, z) := nii_dims f in [x; y; z].

Record MetaTensor := mkMeta {
  arr : tensor Q;
  affine_ornt : ornt
}.

(** ** MONAI transforms, as the script configures them *)

Module Monai.

(** [LoadImage(image_only=True, ensure_channel_first=True)]: read the file
    (an error when it is absent) and put a channel axis of extent 1 in
    front of the three spatial axes. *)
Definition LoadImage (image_only ensure_channel_first : bool)
    (files : gmap string Nifti) (path : string) : option MetaTensor :=
  f ← files !! path;
  let a := mkTensor (nii_shape f) (nii_data f) in
  Some (mkMeta (if ensure_channel_first then unsqueeze0 a else a) (nii_ornt f)).

(** [ScaleIntensityRange.__call__]:
    [img = (img - a_min) / (a_max - a_min)], then
    [img = img * (b_max - b_min) + b_min], then, when [clip] is set,
    [img = clip(img, b_min, b_max)].  (When [a_max - a_min] is zero the
    library returns [img - a_min + b_min].) *)
Definition scale_intensity_range (a_min a_max b_min b_max : Q) (clip : bool)
    (v : Q) : Q :=
  if Qeq_bool (a_max - a_min) 0 then (v - a_min + b_min)%Q
  else
    let v1 := ((v - a_min) / (a_max - a_min))%Q in
    let v2 := (v1 * (b_max - b_min) + b_min)%Q in
    if clip then Qmin (Qmax v2 b_min) b_max else v2.

Definition ScaleIntensityRange (a_min a_max b_min b_max : Q) (clip : bool)
    (x : MetaTensor) : option MetaTensor :=
  Some (mkMeta (tmap (scale_intensity_range a_min a_max b_min b_max clip) (arr x))
               (affine_ornt x)).

(** nibabel's [axcodes2ornt] with the labels (L,R), (P,A), (I,S). *)
Definition axcode2ornt (c : ascii) : option (nat * bool) :=
  if decide (c = "R"%char) then Some (0, false)
  else if decide (c = "L"%char) then Some (0, true)
  else if decide (c = "A"%char) then Some (1, false)
  else if decide (c = "P"%char) then Some (1, true)
  else if decide (c = "S"%char) then Some (2, false)
  else if decide (c = "I"%char) then Some (2, true)
  else None.

Definition axcodes2ornt (axcodes : string) : option ornt :=
  mapM axcode2ornt (String.list_ascii_of_string axcodes).

(** nibabel's [ornt_transform start end]: for every axis of [end], the
    first axis of [start] that runs along the same world axis is sent to
    it, flipped when the two directions differ; an error when there is
    none.  The result lists, per axis of [start], its (target axis, flip). *)
Definition find_axis (w : nat) (o : ornt) : option (nat * bool) :=
  '(i, (_, f)) ← list_find (fun p => p.1 = w) o; Some (i, f).

Definition ornt_transform (start_ornt end_ornt : ornt) : option ornt :=
  guard (length start_ornt = length end_ornt);;
  (* sources.(e) = the axis of [start_ornt] sent to axis [e], and its flip *)
  sources ← mapM (fun '(w, ef) => '(s, sf) ← find_axis w start_ornt;
                                 Some (s, xorb sf ef)) end_ornt;
  (* turn it round: per axis of [start_ornt], where it goes *)
  mapM (fun s => '(e, (_, f)) ← list_find (fun p => p.1 = s) sources; Some (e, f))
       (seq 0 (length start_ornt)).

(** nibabel's [apply_orientation] on the spatial axes of a channel-first
    array: axis [i] of the input, of extent [d], becomes axis [k] of the
    output, reversed when [f] is set, for [(k, f) = t !! i]. *)
Definition reoriented_shape (t : ornt) (sh : list nat) : list nat :=
  (fun k => default 0 ('(i, _) ← list_find (fun p => p.1 = k) t; sh !! i))
    <$> seq 0 (length sh).

Definition reoriented_source (t : ornt) (sh : list nat) (o : index) : index :=
  (fun '(d, (k, f)) => let j := default 0 (o !! k) in
                       if (f : bool) then d - 1 - j else j) <$> zip sh t.

Definition apply_orientation (t : ornt) (a : tensor Q) : tensor Q :=
  let sp := tail (shape a) in
  mkTensor (default 0 (head (shape a)) :: reoriented_shape t sp)
           (fun i => data a (default 0 (head i) :: reoriented_source t sp (tail i))).

(** [Orientation(axcodes=...)]: reorient the spatial axes from the
    orientation of the affine to [axcodes]. *)
Definition Orientation (axcodes : string) (x : MetaTensor) : option MetaTensor :=
  dst ← axcodes2ornt axcodes;
  t ← ornt_transform (affine_ornt x) dst;
  Some (mkMeta (apply_orientation t (arr x)) dst).

(** [fall_back_tuple]: a non-positive component is replaced by the default. *)
Definition fall_back_tuple (user default_ : list nat) : list nat :=
  (fun '(u, d) => if decide (u = 0) then d else u) <$> zip user default_.

(** [Crop.__call__]: [img[:, s0:e0, s1:e1, s2:e2]].  Python clamps a slice
    to the extent of its axis. *)
Definition sliced_extent (d : nat) (sl : nat * nat) : nat :=
  (sl.2 `min` d) - (sl.1 `min` d).

Definition crop (slices : list (nat * nat)) (a : tensor Q) : tensor Q :=
  let sp := tail (shape a) in
  mkTensor (default 0 (head (shape a)) ::
              ((fun '(d, sl) => sliced_extent d sl) <$> zip sp slices))
           (fun i => data a (default 0 (head i) ::
              ((fun '(j, sl) => sl.1 + j) <$> zip (tail i) slices))).

(** [Crop.compute_slices(roi_center=..., roi_size=...)]:
    [start = max(center - roi // 2, 0)], [end = start + roi]. *)
Definition compute_slices (roi_center roi_size : list nat) : list (nat * nat) :=
  (fun '(c, r) => let s := c - r / 2 in (s, s + r)) <$> zip roi_center roi_size.

(** [CenterSpatialCrop(roi_size).compute_slices(spatial_size)]: the centre
    of the region is the centre [d // 2] of every axis. *)
Definition center_slices (roi_size spatial_size : list nat) : list (nat * nat) :=
  compute_slices ((fun d => d / 2) <$> spatial_size)
                 (fall_back_tuple roi_size spatial_size).

(** [get_random_patch]: a corner is drawn on the axes where the patch is
    smaller than the image. *)
Fixpoint random_patch (dims patch : list nat) (R : rng) : list (nat * nat) :=
  match dims, patch with
  | m :: dims', p :: patch' =>
      if decide (p < m)
      then let '(c, R') := randint 0 (m - p + 1) R in
           (c, c + p) :: random_patch dims' patch' R'
      else (0, p) :: random_patch dims' patch' R
  | _, _ => []
  end.

(** [RandSpatialCrop(roi_size, max_roi_size, random_center, random_size)]:
    [randomize] fixes the size of the region (drawn between [roi_size] and
    [max_roi_size] when [random_size] is set, an error when [roi_size]
    exceeds it) and, when [random_center] is set, draws its position;
    otherwise the region is the one of [CenterSpatialCrop]. *)
Definition RandSpatialCrop (roi_size : list nat) (max_roi_size : option (list nat))
    (random_center random_size : bool) (R : rng) (x : MetaTensor) : option MetaTensor :=
  let img_size := tail (shape (arr x)) in
  let size0 := fall_back_tuple roi_size img_size in
  '(size, R1) ←
    (if random_size then
       let max_size := match max_roi_size with
                       | None => img_size
                       | Some m => fall_back_tuple m img_size
                       end in
       guard (Forall (fun p => p.1 <= p.2) (zip size0 max_size));;
       Some (randints (zip size0 (S <$> max_size)) R)
     else Some (size0, R));
  let slices :=
    if random_center
    then random_patch img_size (zip_with Nat.min img_size size) R1
    else center_slices size img_size in
  Some (mkMeta (crop slices (arr x)) (affine_ornt x)).

(** The script does not pass [random_size]; its default is [False]
    (MONAI 1.3 and later). *)
Definition random_size_default : bool := false.

(** [Compose]: the loader, then the transforms in order; an error of one
    of them is the error of the chain. *)
Definition Compose (loader : string -> option MetaTensor)
    (transforms : list (MetaTensor -> option MetaTensor)) (path : string)
    : option MetaTensor :=
  foldl (fun acc t => acc ≫= t) (loader path) transforms.

End Monai.

(** ** The two preprocessing chains of the script (lines 96-126) *)

Definition amin : Q := - (2218 # 100).
Definition amax : Q := 450.

Definition roi : list nat := [512; 512; 160].

Definition image_transforms (files : gmap string Nifti) (R : rng)
    : string -> option MetaTensor :=
  Monai.Compose
    (Monai.LoadImage true true files)
    [ Monai.ScaleIntensityRange amin amax 0 1 true;
      Monai.Orientation "RAS";
      Monai.RandSpatialCrop roi None false Monai.random_size_default R ].

Definition seg_transforms (files : gmap string Nifti) (R : rng)
    : string -> option MetaTensor :=
  Monai.Compose
    (Monai.LoadImage true true files)
    [ Monai.Orientation "RAS";
      Monai.RandSpatialCrop roi None false Monai.random_size_default R ].

(** ** PyTorch: the network and the tensor operations of the step *)

(** [x > y] on floats. *)
Definition Qgtb (x y : Q) : bool := negb (Qle_bool x y).

(** [torch.argmax] of a vector: the index of the first maximal value. *)
Fixpoint argmax_from (best_i : nat) (best : Q) (i : nat) (l : list Q) : nat :=
  match l with
  | [] => best_i
  | x :: l' => if Qgtb x best then argmax_from i x (S i) l'
               else argmax_from best_i best (S i) l'
  end.

Definition argmax (l : list Q) : nat :=
  match l with
  | [] => 0
  | x :: l' => argmax_from 0 x 1 l'
  end.

(** The values along axis 1 (the channels) at batch position [b] and
    spatial position [sp]. *)
Definition channels_at (t : tensor Q) (b : nat) (sp : index) : list Q :=
  (fun c => data t (b :: c :: sp)) <$> seq 0 (default 0 (shape t !! 1)).

(** [torch.argmax(t, dim=1)]: axis 1 disappears. *)
Definition argmax_dim1 (t : tensor Q) : tensor Z :=
  mkTensor (take 1 (shape t) ++ drop 2 (shape t))
           (fun i => Z.of_nat (argmax (channels_at t (default 0 (head i)) (tail i)))).

(** The hyper-parameters of [monai.networks.nets.UNet]. *)
Record UNet := mkUNet {
  spatial_dims : nat;
  in_channels : nat;
  out_channels : nat;
  channels : list nat;
  strides : list nat;
  num_res_units : nat
}.

(** The dtype-tagged results the script handles: the prediction of the
    step is a boolean tensor (threshold) or an integer one (arg-max); the
    arrays handed to the renderer are integer or floating point. *)
Inductive Prediction :=
  | Binary (t : tensor bool)
  | Labels (t : tensor Z).

Inductive ndarray :=
  | IntArray (t : tensor Z)
  | FloatArray (t : tensor Q).

Definition ndarray_shape (a : ndarray) : list nat :=
  match a with IntArray t => shape t | FloatArray t => shape t end.

Definition ndarray_select0 (k : nat) (a : ndarray) : ndarray :=
  match a with
  | IntArray t => IntArray (select0 k t)
  | FloatArray t => FloatArray (select0 k t)
  end.

(** [prediction * 1]: booleans become the integers 0 and 1. *)
Definition times_one (p : Prediction) : tensor Z :=
  match p with
  | Binary t => tmap (fun b : bool => if b then 1%Z else 0%Z) t
  | Labels t => tmap (fun z => (z * 1)%Z) t
  end.

Definition prediction_shape (p : Prediction) : list nat :=
  match p with Binary t => shape t | Labels t => shape t end.

Definition prediction_select0 (b : nat) (p : Prediction) : Prediction :=
  match p with
  | Binary t => Binary (select0 b t)
  | Labels t => Labels (select0 b t)
  end.

(** [t.squeeze()]: the axes of extent 1 are removed. *)
Fixpoint unsqueezed (sh : list nat) (i : index) : index :=
  match sh with
  | [] => []
  | d :: sh' =>
      if decide (d = 1) then 0 :: unsqueezed sh' i
      else default 0 (head i) :: unsqueezed sh' (tail i)
  end.

Definition squeeze {A} (t : tensor A) : tensor A :=
  mkTensor (filter (fun d => d ≠ 1) (shape t))
           (fun i => data t (unsqueezed (shape t) i)).

(** [t.T]: the axes in reverse order. *)
Definition T {A} (t : tensor A) : tensor A :=
  mkTensor (reverse (shape t)) (fun i => data t (reverse i)).

(** [torch.stack] of the items of a batch (the default collate function):
    an error unless all have the shape of the first. *)
Definition stack (ts : list (tensor Q)) : option (tensor Q) :=
  t0 ← head ts;
  guard (Forall (fun t => shape t = shape t0) ts);;
  Some (mkTensor (length ts :: shape t0)
                 (fun i => match ts !! default 0 (head i) with
                           | Some t => data t (tail i)
                           | None => 0%Q
                           end)).

(** ** MONAI's [DiceMetric(include_background=True, reduction="mean")] *)

Module Dice.

Definition qsum (l : list Q) : Q := foldr Qplus 0%Q l.

Definition of_nat (n : nat) : Q := inject_Z (Z.of_nat n).

(** [DiceHelper.compute_channel(y_pred, y)] with [ignore_empty=True]:
    [y_o = sum(y)]; when [y_o > 0] the score is
    [2 * sum(masked_select(y, y_pred)) / (y_o + sum(y_pred))], otherwise it
    is NaN ([None]). *)
Definition compute_channel (sh : list nat) (x_pred : index -> bool) (x : index -> Q)
    : option Q :=
  let y_o := qsum (x <$> indices sh) in
  if Qgtb y_o 0
  then Some (2 * qsum (x <$> filter (fun i => x_pred i) (indices sh))
             / (y_o + of_nat (length (filter (fun i => x_pred i) (indices sh)))))%Q
  else None.

(** [DiceHelper.__call__] on a boolean prediction and a mask, both of shape
    (batch, channel, spatial...): one row per batch item, one score per
    channel.  With a single channel the score compares the voxels equal
    to 1: [x_pred = (y_pred[b, 0] == 1)], [x = (y[b, 0] == 1)]; with several
    channels, [x_pred = y_pred[b, c]] and [x = y[b, c]] for every channel
    (the background included).  Shapes that differ are an error. *)
Definition compute_dice (y_pred : tensor bool) (y : tensor Q)
    : option (list (list (option Q))) :=
  guard (shape y_pred = shape y);;
  guard (3 <= length (shape y_pred));;
  let B := default 0 (shape y_pred !! 0) in
  let C := default 0 (shape y_pred !! 1) in
  let sp := drop 2 (shape y_pred) in
  Some ((fun b =>
           if decide (C = 1)
           then [ compute_channel sp
                    (fun i => data y_pred (b :: 0 :: i))
                    (fun i => if Qeq_bool (data y (b :: 0 :: i)) 1 then 1%Q else 0%Q) ]
           else (fun c => compute_channel sp
                            (fun i => data y_pred (b :: c :: i))
                            (fun i => data y (b :: c :: i))) <$> seq 0 C)
        <$> seq 0 B).

(** [do_metric_reduction(f, "mean")]: NaN scores are left out; first the
    mean over the channels of every row, then the mean over the rows that
    have a score at all; 0 where nothing is left. *)
Definition not_nans (row : list (option Q)) : nat := length (omap id row).

Definition channel_mean (row : list (option Q)) : Q :=
  if decide (0 < not_nans row)
  then (qsum (omap id row) / of_nat (not_nans row))%Q
  else 0%Q.

Definition mean_reduction (f : list (list (option Q))) : Q :=
  let n := length (filter (fun row => 0 < not_nans row) f) in
  if decide (0 < n)
  then (qsum (channel_mean <$> f) / of_nat n)%Q
  else 0%Q.

(** [DiceMetric.aggregate()]: reduce the buffer of all rows seen so far;
    the buffer is read, not changed.  An error when it is empty. *)
Definition aggregate (buffer : list (list (option Q))) : option Q :=
  guard (buffer ≠ []);;
  Some (mean_reduction buffer).

End Dice.

(** ** Paths, directories and the renderer's output *)

(** [os.path.join(a, b)] (POSIX). *)
Fixpoint ends_with_slash (s : string) : bool :=
  match s with
  | EmptyString => false
  | String c EmptyString => bool_decide (c = "/"%char)
  | String _ s' => ends_with_slash s'
  end.

Definition path_join (a b : string) : string :=
  match b with
  | String "/" _ => b
  | _ => if bool_decide (a = "") || ends_with_slash a then a +:+ b
         else a +:+ "/" +:+ b
  end.

(** [os.makedirs(name, exist_ok=...)]. *)
Definition makedirs (name : string) (exist_ok : bool) (dirs : gset string)
    : option (gset string) :=
  if decide (name ∈ dirs) then (if exist_ok then Some dirs else None)
  else Some ({[ name ]} ∪ dirs).

(** [f"{n}"] for a non-negative integer. *)
Definition str (n : nat) : string := NilZero.string_of_uint (Nat.to_uint n).

(** What [update(frame)] puts on the figure, and the animation
    [FuncAnimation(fig, update, frames=n, interval=..., blit=...)] that
    [ani.save] writes out frame by frame. *)
Record Frame := mkFrame {
  title : string;
  picture : ndarray;
  cmap : string
}.

Record Animation := mkAnimation {
  frames : list Frame;
  interval : nat;
  blit : bool
}.

(** ** ignite metrics

    [Recall] and [Precision] are used as black boxes: an accumulator that
    [started] resets, [iteration_completed] updates with the output of the
    step and [completed] turns into the value stored in
    [engine.state.metrics]. *)
Record IgniteMetric (V : Type) := mkIgniteMetric {
  acc : Type;
  reset : acc;
  update : acc -> Prediction * tensor Q -> option acc;
  compute : acc -> option V
}.
Arguments acc {V} _.
Arguments reset {V} _.
Arguments update {V} _ _ _.
Arguments compute {V} _ _.

(** ** The script *)

Section Script.

(** [torch.sigmoid] on a scalar and [torch.softmax] on a vector. *)
Variable sigmoid : Q -> Q.
Variable softmax : list Q -> list Q.

(** The contents of a checkpoint, whether it fits a topology
    ([load_state_dict] fails otherwise), and the function the network
    computes with it: in evaluation mode a function of the input alone, in
    training mode one that may also change the module's buffers. *)
Variable state_dict : Type.
Variable state_dict_fits : UNet -> state_dict -> bool.
Variable unet_eval : UNet -> state_dict -> tensor Q -> index -> Q.
Variable unet_train : UNet -> state_dict -> tensor Q -> (index -> Q) * state_dict.

(** MONAI's Dice on an arg-max'ed prediction, which has lost its channel
    axis; the script's network never produces one. *)
Variable dice_of_labels : tensor Z -> tensor Q -> option (list (list (option Q))).

(** ignite's metrics. *)
Variable metric_value : Type.
Variable Recall : bool -> IgniteMetric metric_value.
Variable Precision : bool -> IgniteMetric metric_value.

(** The lines the script prints. *)
Inductive line :=
  | Text (s : string)
  | MeanDice (v : Q)                          (* f"Mean Dice Score: {v:.4f}" *)
  | RecallPrecision (r p : metric_value).     (* f"Recall: {r} | Precision {p}" *)

(** [torch.softmax(t, dim=1)]. *)
Definition softmax_dim1 (t : tensor Q) : tensor Q :=
  mkTensor (shape t)
           (fun i => match i with
                     | b :: c :: sp => default 0%Q (softmax (channels_at t b sp) !! c)
                     | _ => 0%Q
                     end).

(** A [torch.nn.Module]: topology, loaded parameters, mode. *)
Record Module_ := mkModule {
  net : UNet;
  params : state_dict;
  training : bool
}.

Definition eval (m : Module_) : Module_ := mkModule (net m) (params m) false.

(** [model(images)]: the output has the batch and spatial extents of the
    input and [out_channels] channels. *)
Definition forward (m : Module_) (x : tensor Q) : tensor Q * Module_ :=
  let sh := take 1 (shape x) ++ out_channels (net m) :: drop 2 (shape x) in
  if training m
  then let '(d, sd) := unet_train (net m) (params m) x in
       (mkTensor sh d, mkModule (net m) sd true)
  else (mkTensor sh (unet_eval (net m) (params m) x), m).

(** Lines 50-64. *)
Definition evaluation_step (model : Module_) (batch : tensor Q * tensor Q)
    : option ((Prediction * tensor Q) * Module_) :=
  let model := eval model in
  let '(images, masks) := batch in
  let '(outputs, model) := forward model images in
  let '(logits, model) := forward model images in
  c ← shape logits !! 1;
  let predictions :=
    if decide (c = 1)
    then Binary (tmap (fun v => Qgtb (sigmoid v) (1 # 2)) logits)
    else Labels (argmax_dim1 (softmax_dim1 logits)) in
  Some ((predictions, masks), model).

(** The step as it would read with a single forward pass. *)
Definition evaluation_step_single_pass (model : Module_) (batch : tensor Q * tensor Q)
    : option ((Prediction * tensor Q) * Module_) :=
  let model := eval model in
  let '(images, masks) := batch in
  let '(logits, model) := forward model images in
  c ← shape logits !! 1;
  let predictions :=
    if decide (c = 1)
    then Binary (tmap (fun v => Qgtb (sigmoid v) (1 # 2)) logits)
    else Labels (argmax_dim1 (softmax_dim1 logits)) in
  Some ((predictions, masks), model).

(** What the handlers of the evaluator read and write: the model, the
    buffer of [mean_dice_metric], the accumulators of the two ignite
    metrics, [store_predictions]. *)
Record EvalState := mkEvalState {
  model : Module_;
  dice_buffer : list (list (option Q));
  recall_acc : acc (Recall true);
  precision_acc : acc (Precision false);
  store_predictions : list (tensor Z * tensor Q)
}.

(** Lines 69-72: [mean_dice_metric(y_pred=predictions, y=masks)] appends
    the scores of the batch to the buffer. *)
Definition update_dice_metric (output : Prediction * tensor Q)
    (buffer : list (list (option Q))) : option (list (list (option Q))) :=
  rows ← match output.1 with
         | Binary p => Dice.compute_dice p output.2
         | Labels p => dice_of_labels p output.2
         end;
  Some (buffer ++ rows).

(** Lines 88-94: one record per item of the batch. *)
Definition save_segmentation_masks (output : Prediction * tensor Q)
    (store : list (tensor Z * tensor Q)) : option (list (tensor Z * tensor Q)) :=
  let '(predictions, ground_truth) := output in
  records ← mapM (fun idx =>
                    guard (idx < default 0 (head (shape ground_truth)));;
                    Some (times_one (prediction_select0 idx predictions),
                          select0 idx ground_truth))
                 (seq 0 (default 0 (head (prediction_shape predictions))));
  Some (store ++ records).

(** One iteration of the engine: the step, then the handlers of
    [ITERATION_COMPLETED] in the order they were attached. *)
Definition iteration (st : EvalState) (batch : tensor Q * tensor Q) : option EvalState :=
  '(output, m) ← evaluation_step (model st) batch;
  buf ← update_dice_metric output (dice_buffer st);
  r ← update (Recall true) (recall_acc st) output;
  p ← update (Precision false) (precision_acc st) output;
  store ← save_segmentation_masks output (store_predictions st);
  Some (mkEvalState m buf r p store).

Fixpoint iterations (st : EvalState) (batches : list (tensor Q * tensor Q))
    : option EvalState :=
  match batches with
  | [] => Some st
  | batch :: rest => st' ← iteration st batch; iterations st' rest
  end.

(** Lines 75-78. The assignment is to a variable of the handler; the
    handler's only effect is the printed line. *)
Definition log_mean_dice (buffer : list (list (option Q))) : option line :=
  mean_dice_score ← Dice.aggregate buffer;
  Some (MeanDice mean_dice_score).

(** [evaluator.run(test_loader)]: one epoch.  [EPOCH_STARTED] resets the
    ignite metrics, every batch is one iteration, [EPOCH_COMPLETED] stores
    the ignite metrics under their names, [COMPLETED] runs
    [log_mean_dice]. *)
Definition evaluator_run (st : EvalState) (batches : list (tensor Q * tensor Q))
    : option (EvalState * gmap string metric_value * list line) :=
  let st := mkEvalState (model st) (dice_buffer st)
                        (reset (Recall true)) (reset (Precision false))
                        (store_predictions st) in
  st ← iterations st batches;
  recall ← compute (Recall true) (recall_acc st);
  precision ← compute (Precision false) (precision_acc st);
  let metrics : gmap string metric_value :=
    <["precision" := precision]> (<["recall" := recall]> ∅) in
  printed ← log_mean_dice (dice_buffer st);
  Some (st, metrics, [printed]).

(** [ArrayDataset(img, img_transform, seg, seg_transform)]: item [i] is the
    pair of the transformed image and the transformed segmentation, the
    random transforms of both being given the same state. *)
Definition ArrayDataset_getitem
    (img : list string) (img_transform : rng -> string -> option MetaTensor)
    (seg : list string) (seg_transform : rng -> string -> option MetaTensor)
    (seeds : nat -> rng) (i : nat) : option (tensor Q * tensor Q) :=
  img_path ← img !! i;
  seg_path ← seg !! i;
  x ← img_transform (seeds i) img_path;
  y ← seg_transform (seeds i) seg_path;
  Some (arr x, arr y).

(** [DataLoader(ds, batch_size=n)] without shuffling: the items in order,
    [n] at a time, each group stacked into one batch. *)
Fixpoint batched {A} (n : nat) (cur : list A) (l : list A) : list (list A) :=
  match l with
  | [] => match cur with [] => [] | _ => [cur] end
  | x :: l' =>
      let cur' := cur ++ [x] in
      if decide (n <= length cur') then cur' :: batched n [] l'
      else batched n cur' l'
  end.

Definition DataLoader (len : nat) (getitem : nat -> option (tensor Q * tensor Q))
    (batch_size : nat) : option (list (tensor Q * tensor Q)) :=
  mapM (fun idxs =>
          items ← mapM getitem idxs;
          images ← stack (items.*1);
          masks ← stack (items.*2);
          Some (images, masks))
       (batched batch_size [] (seq 0 len)).

(** Lines 145-157. *)
Definition gif_generator (image : ndarray) : option Animation :=
  n ← head (ndarray_shape image);
  guard (0 < n);;
  let update frame :=
    mkFrame ("Slice " +:+ str frame) (ndarray_select0 frame image) "bone" in
  Some (mkAnimation (update <$> seq 0 n) 300 true).

(** The world the script runs in, and what it leaves behind. *)
Record World := mkWorld {
  cwd : string;
  niftis : gmap string Nifti;
  checkpoints : gmap string state_dict;
  directories : gset string;
  seeds : nat -> rng
}.

Record Effects := mkEffects {
  stdout : list line;
  directories_after : gset string;
  saved : list (string * Animation)
}.

Definition the_model : UNet := mkUNet 3 1 1 [16; 32; 64; 128; 256] [2; 2; 2; 2] 2.

(** Lines 21-165. *)
Definition generate_output (w : World)
    : option ((Q * metric_value * metric_value) * Effects) :=
  let ROOT_PATH := cwd w in
  let MODEL_PATH := path_join (path_join ROOT_PATH "models") "model.pth" in
  let DATA_PATH := path_join ROOT_PATH "data" in
  model_weights ← checkpoints w !! MODEL_PATH;
  guard (state_dict_fits the_model model_weights = true);;
  let model := mkModule the_model model_weights true in
  let imgs := [path_join DATA_PATH "volume-20.nii";
               path_join DATA_PATH "volume-25.nii"] in
  let segs := [path_join DATA_PATH "new-segmentation-20.nii";
               path_join DATA_PATH "new-segmentation-25.nii"] in
  let store_predictions0 : list (tensor Z * tensor Q) := [] in
  let mean_dice_metric : list (list (option Q)) := [] in
  let mean_dice_score : Q := (-1)%Q in
  let output_dir := path_join ROOT_PATH "saved_gifs" in
  dirs ← makedirs output_dir true (directories w);
  let test_ds :=
    ArrayDataset_getitem imgs (image_transforms (niftis w))
                         segs (seg_transforms (niftis w)) (seeds w) in
  test_loader ← DataLoader (length imgs `min` length segs) test_ds 1;
  let out1 := [Text "Initiating testing..."] in
  '(st, metrics, printed) ←
    evaluator_run
      (mkEvalState model mean_dice_metric (reset (Recall true))
                   (reset (Precision false)) store_predictions0)
      test_loader;
  let out2 := out1 ++ printed in
  mean_dice_score ← Dice.aggregate (dice_buffer st);
  recall ← metrics !! "recall";
  precision ← metrics !! "precision";
  let out3 := out2 ++ [RecallPrecision recall precision] in
  r0 ← store_predictions st !! 0;
  r1 ← store_predictions st !! 1;
  let mask := IntArray (T (squeeze r0.1)) in
  let ground_truth := FloatArray (T (squeeze r0.2)) in
  let mask2 := IntArray (T (squeeze r1.1)) in
  let ground_truth2 := FloatArray (T (squeeze r1.2)) in
  let out4 := out3 ++ [Text "Initiating GIF Generation"] in
  let masks := [mask; ground_truth; mask2; ground_truth2] in
  gifs ← mapM (fun '(idx, img) =>
                 ani ← gif_generator img;
                 Some (path_join ROOT_PATH ("saved_gifs/mask" +:+ str idx +:+ ".gif"),
                       ani))
              (imap pair masks);
  Some ((mean_dice_score, recall, precision), mkEffects out4 dirs gifs).

End Script.

Arguments mkModule {state_dict} _ _ _.
Arguments net {state_dict} _.
Arguments params {state_dict} _.
Arguments training {state_dict} _.
Arguments eval {state_dict} _.
Arguments forward {state_dict} _ _ _ _.
Arguments mkEvalState {state_dict metric_value Recall Precision} _ _ _ _ _.
Arguments model {state_dict metric_value Recall Precision} _.
Arguments dice_buffer {state_dict metric_value Recall Precision} _.
Arguments recall_acc {state_dict metric_value Recall Precision} _.
Arguments precision_acc {state_dict metric_value Recall Precision} _.
Arguments store_predictions {state_dict metric_value Recall Precision} _.
Arguments Text {metric_value} _.
Arguments MeanDice {metric_value} _.
Arguments RecallPrecision {metric_value} _ _.
Arguments log_mean_dice {metric_value} _.
Arguments mkWorld {state_dict} _ _ _ _ _.
Arguments cwd {state_dict} _.
Arguments niftis {state_dict} _.
Arguments checkpoints {state_dict} _.
Arguments directories {state_dict} _.
Arguments seeds {state_dict} _.
Arguments mkEffects {metric_value} _ _ _.
Arguments stdout {metric_value} _.
Arguments directories_after {metric_value} _.
Arguments saved {metric_value} _.

(** * Notions used in the statements *)

(** The intensity rescaling of the image chain (lines 102-108). *)
Definition rescale : Q -> Q := Monai.scale_intensity_range amin amax 0 1 true.

Definition clamp (x lo hi : Q) : Q := Qmin (Qmax x lo) hi.

(** The orientation "RAS" as nibabel encodes it. *)
Definition ras : ornt := [(0, false); (1, false); (2, false)].

(** The region the last step of both chains keeps of a volume whose
    (reoriented) spatial shape is [sp]. *)
Definition crop_slices (sp : list nat) : list (nat * nat) :=
  Monai.center_slices (Monai.fall_back_tuple roi sp) sp.

(** The voxel of the file that ends up at index [i] (channel first) of the
    transformed tensor.  It is computed from the shape and the orientation
    of the file, not from its intensities. *)
Definition voxel_source (dims : list nat) (o : ornt) (i : index) : index :=
  match Monai.ornt_transform o ras with
  | Some t =>
      Monai.reoriented_source t dims
        ((fun '(j, sl) => sl.1 + j)
           <$> zip (tail i) (crop_slices (Monai.reoriented_shape t dims)))
  | None => []
  end.

(** [vol] holds the value [m] at [p] and nowhere else. *)
Definition marked_at {A} (vol : index -> A) (m : A) (p : index) : Prop :=
  forall q, vol q = m <-> q = p.

(** The buffer of [mean_dice_metric] (line 47) after the handler of lines
    69-72 has seen [outputs], one after the other. *)
Definition dice_buffer_after
    (dice_of_labels : tensor Z -> tensor Q -> option (list (list (option Q))))
    (outputs : list (Prediction * tensor Q)) : option (list (list (option Q))) :=
  foldl (fun buffer output => buffer ≫= update_dice_metric dice_of_labels output)
        (Some []) outputs.

(** A voxel of the mask counts as positive when it holds the label 1. *)
Definition positive (y : tensor Q) (i : index) : bool := Qeq_bool (data y i) 1.

(** A boolean prediction and a mask of the same shape: some items, one
    channel, at least one spatial axis. *)
Definition single_channel (p : tensor bool) (y : tensor Q) : Prop :=
  exists B sp, shape p = B :: 1 :: sp /\ shape y = B :: 1 :: sp /\ 0 < B /\ sp <> [].

(** The prediction equals the mask; the two have no positive voxel in
    common; the prediction has a positive voxel. *)
Definition matching (p : tensor bool) (y : tensor Q) : Prop :=
  forall i, i ∈ indices (shape p) -> data p i = positive y i.

Definition disjoint_masks (p : tensor bool) (y : tensor Q) : Prop :=
  forall i, i ∈ indices (shape p) -> ~ (data p i = true /\ positive y i = true).

Definition some_positive (p : tensor bool) : Prop :=
  exists i, i ∈ indices (shape p) /\ data p i = true.

(** The outputs of the step for boolean predictions. *)
Definition evaluated (pairs : list (tensor bool * tensor Q))
    : list (Prediction * tensor Q) :=
  (fun py => (Binary py.1, py.2)) <$> pairs.

(** [ani] is what the renderer makes of [img]: one frame per slice along
    the leading axis of [img], frame [k] showing slice [k] under the title
    "Slice k", 300 ms between frames. *)
Definition rendering_of (img : ndarray) (ani : Animation) : Prop :=
  gif_generator img = Some ani
  /\ interval ani = 300
  /\ length (frames ani) = default 0 (head (ndarray_shape img))
  /\ forall k, k < length (frames ani) ->
                frames ani !! k
                = Some (mkFrame ("Slice " +:+ str k) (ndarray_select0 k img) "bone").

(** ** Small volumes for worked examples *)

Definition lps : ornt := [(0, true); (1, true); (2, false)].

(** The voxel at array position (x, y, z) holds 100x + 10y + z. *)
Definition coordinate_volume (dims : nat * nat * nat) (o : ornt) : Nifti :=
  mkNifti dims o
    (fun q => inject_Z (Z.of_nat (100 * default 0 (q !! 0) + 10 * default 0 (q !! 1)
                                  + default 0 (q !! 2)))).

(** Zero everywhere but for the value [m] at position [p]. *)
Definition marker_volume (dims : nat * nat * nat) (o : ornt) (p : index) (m : Q)
    : Nifti :=
  mkNifti dims o (fun q => if decide (q = p) then m else 0%Q).

Definition example_files : gmap string Nifti :=
  {[ "volume.nii" := marker_volume (4, 4, 6) lps [1; 2; 3] 100%Q;
     "segmentation.nii" := marker_volume (4, 4, 6) lps [1; 2; 3] 1%Q;
     "short.nii" := coordinate_volume (512, 512, 100) ras;
     "long.nii" := coordinate_volume (512, 512, 200) ras ]}.

(** An image of 200 slices with a segmentation of 180 slices, same
    orientation, each with a marker at the array position (1, 2, 100). *)
Definition uneven_files : gmap string Nifti :=
  {[ "volume.nii" := marker_volume (4, 4, 200) ras [1; 2; 100] 100%Q;
     "segmentation.nii" := marker_volume (4, 4, 180) ras [1; 2; 100] 1%Q ]}.

(** Stand-ins for the transcendental activations: a rational function
    with the range, the midpoint and the monotonicity of the logistic
    function, and the normalisation of its values over a vector. *)
Definition example_sigmoid (x : Q) : Q :=
  ((1 # 2) + x / (2 * (1 + Qmax x (- x))))%Q.

Definition example_softmax (l : list Q) : list Q :=
  (fun x => example_sigmoid x / Dice.qsum (example_sigmoid <$> l))%Q <$> l.

(** A network that scores a voxel by its own (rescaled) intensity against
    a threshold, the same on every output channel but for an offset. *)
Definition example_net (n : UNet) (_ : unit) (x : tensor Q) (i : index) : Q :=
  match i with
  | b :: c :: sp => (data x (b :: 0%nat :: sp) * 10 - 1 - inject_Z (Z.of_nat c))%Q
  | _ => 0%Q
  end.

Definition example_train (n : UNet) (sd : unit) (x : tensor Q) : (index -> Q) * unit :=
  (example_net n sd x, sd).

(** A network with a known class per voxel: on channel [c] it answers
    [-(v - c)^2] for a voxel of intensity [v], so that the channel with
    the highest output at a voxel of intensity 0, 1, 2, ... is channel
    0, 1, 2, ... *)
Definition example_classifier (n : UNet) (_ : unit) (x : tensor Q) (i : index) : Q :=
  match i with
  | b :: c :: sp =>
      let d := (data x (b :: 0%nat :: sp) - inject_Z (Z.of_nat c))%Q in (- (d * d))%Q
  | _ => 0%Q
  end.

Definition example_classifier_train (n : UNet) (sd : unit) (x : tensor Q)
    : (index -> Q) * unit :=
  (example_classifier n sd x, sd).

(** Two items of two voxels: the intensities 0 and 2 in the first item,
    1 and 2 in the second. *)
Definition two_item_batch : tensor Q :=
  mkTensor [2; 1; 1; 1; 2]
           (fun i => match i with
                     | [b; _; _; _; z] =>
                         if decide (z = 0%nat) then inject_Z (Z.of_nat b) else 2%Q
                     | _ => 0%Q
                     end).

(** ignite metrics that count the batches they have seen. *)
Definition counting_metric (average : bool) : IgniteMetric nat :=
  mkIgniteMetric nat nat 0 (fun a _ => Some (S a)) (fun a => Some a).

(** A working directory with the four volumes and the checkpoint. *)
Definition example_world : World unit :=
  mkWorld "/work"
    {[ "/work/data/volume-20.nii" := marker_volume (2, 2, 3) lps [1; 0; 2] 450%Q;
       "/work/data/new-segmentation-20.nii" := marker_volume (2, 2, 3) lps [1; 0; 2] 1%Q;
       "/work/data/volume-25.nii" := marker_volume (2, 2, 3) ras [0; 1; 1] 450%Q;
       "/work/data/new-segmentation-25.nii" := marker_volume (2, 2, 3) ras [1; 1; 1] 1%Q ]}
    {[ "/work/models/model.pth" := () ]}
    ∅
    (fun _ => []).

Definition example_run : option ((Q * nat * nat) * Effects nat) :=
  generate_output example_sigmoid example_softmax unit (fun _ _ => true)
    example_net example_train (fun _ _ => None) nat counting_metric counting_metric
    example_world.

(** The loader, the first state and the last state of the loop in that
    world. *)
Definition example_loader : option (list (tensor Q * tensor Q)) :=
  DataLoader
    (length ["/work/data/volume-20.nii"; "/work/data/volume-25.nii"]
       `min` length ["/work/data/new-segmentation-20.nii";
                     "/work/data/new-segmentation-25.nii"])
    (ArrayDataset_getitem
       ["/work/data/volume-20.nii"; "/work/data/volume-25.nii"]
       (image_transforms (niftis example_world))
       ["/work/data/new-segmentation-20.nii"; "/work/data/new-segmentation-25.nii"]
       (seg_transforms (niftis example_world))
       (seeds example_world))
    1.

Definition example_batches : list (tensor Q * tensor Q) := default [] example_loader.

Definition example_start : EvalState unit nat counting_metric counting_metric :=
  mkEvalState (mkModule the_model () true) []
              (reset (counting_metric true)) (reset (counting_metric false)) [].

Definition example_final : EvalState unit nat counting_metric counting_metric :=
  default example_start
    (iterations example_sigmoid example_softmax unit example_net example_train
       (fun _ _ => None) nat counting_metric counting_metric
       example_start example_batches).

(** One voxel set, and none, in a prediction and in a mask. *)
Definition voxel_prediction (sh : list nat) (pos : index) : tensor bool :=
  mkTensor sh (fun i => bool_decide (i = pos)).

Definition voxel_mask (sh : list nat) (pos : index) : tensor Q :=
  mkTensor sh (fun i => if decide (i = pos) then 1%Q else 0%Q).

Definition empty_prediction (sh : list nat) : tensor bool :=
  mkTensor sh (fun _ => false).

Definition empty_mask (sh : list nat) : tensor Q :=
  mkTensor sh (fun _ => 0%Q).

(** ** Notions used in the further properties *)

(** [i] is a valid index of an array of shape [sh]. *)
Definition in_bounds (sh : list nat) (i : index) : Prop := Forall2 lt i sh.

(** The orientation of a proper three-axis affine: every world axis is the
    direction of exactly one array axis. *)
Definition signed_permutation (o : ornt) : Prop :=
  o.*1 ∈ permutations [0; 1; 2].

(** Where an axis of extent [d] is read for position [i] of a crop that
    is centred on it and [2 * h] wide: at [d/2 - h + i], counted from the
    far end when the axis is flipped. *)
Definition read_at (flipped : bool) (d h i : nat) : nat :=
  let j := d / 2 - h + i in
  if flipped then d - 1 - j else j.

(** * Theorems *)

(** ** Preprocessing *)

Lemma orient_then_crop (R : rng) (x : MetaTensor) :
  (Monai.Orientation "RAS" x ≫=
     Monai.RandSpatialCrop roi None false Monai.random_size_default R) =
  (t ← Monai.ornt_transform (affine_ornt x) ras;
   Some (mkMeta
           (Monai.crop
              (crop_slices (Monai.reoriented_shape t (tail (shape (arr x)))))
              (Monai.apply_orientation t (arr x)))
           ras)).
Proof.
  unfold Monai.Orientation.
  change (Monai.axcodes2ornt "RAS") with (Some ras).
  cbn [mbind option_bind].
  destruct (Monai.ornt_transform (affine_ornt x) ras) as [t|]; reflexivity.
Qed.

Lemma image_transforms_eq (files : gmap string Nifti) (R : rng) (p : string) :
  image_transforms files R p =
  (f ← files !! p;
   t ← Monai.ornt_transform (nii_ornt f) ras;
   Some (mkMeta
           (Monai.crop (crop_slices (Monai.reoriented_shape t (nii_shape f)))
              (Monai.apply_orientation t
                 (tmap rescale (unsqueeze0 (mkTensor (nii_shape f) (nii_data f))))))
           ras)).
Proof.
  unfold image_transforms, Monai.Compose, Monai.LoadImage. cbn [foldl].
  destruct (files !! p) as [f|]; [|reflexivity].
  cbn [mbind option_bind Monai.ScaleIntensityRange].
  apply (orient_then_crop R).
Qed.

Lemma seg_transforms_eq (files : gmap string Nifti) (R : rng) (p : string) :
  seg_transforms files R p =
  (f ← files !! p;
   t ← Monai.ornt_transform (nii_ornt f) ras;
   Some (mkMeta
           (Monai.crop (crop_slices (Monai.reoriented_shape t (nii_shape f)))
              (Monai.apply_orientation t
                 (unsqueeze0 (mkTensor (nii_shape f) (nii_data f)))))
           ras)).
Proof.
  unfold seg_transforms, Monai.Compose, Monai.LoadImage. cbn [foldl].
  destruct (files !! p) as [f|]; [|reflexivity].
  cbn [mbind option_bind].
  apply (orient_then_crop R).
Qed.

Lemma image_transforms_voxel files R p f out :
  files !! p = Some f ->
  image_transforms files R p = Some out ->
  forall i, data (arr out) i
            = rescale (nii_data f (voxel_source (nii_shape f) (nii_ornt f) i)).
Proof.
  intros Hf Hout i. rewrite image_transforms_eq, Hf in Hout.
  cbn [mbind option_bind] in Hout. unfold voxel_source.
  destruct (Monai.ornt_transform (nii_ornt f) ras) as [t|]; [|discriminate].
  injection Hout as <-. reflexivity.
Qed.

Lemma seg_transforms_voxel files R p f out :
  files !! p = Some f ->
  seg_transforms files R p = Some out ->
  forall i, data (arr out) i
            = nii_data f (voxel_source (nii_shape f) (nii_ornt f) i).
Proof.
  intros Hf Hout i. rewrite seg_transforms_eq, Hf in Hout.
  cbn [mbind option_bind] in Hout. unfold voxel_source.
  destruct (Monai.ornt_transform (nii_ornt f) ras) as [t|]; [|discriminate].
  injection Hout as <-. reflexivity.
Qed.

Lemma nii_shape_dims (f g : Nifti) : nii_dims f = nii_dims g -> nii_shape f = nii_shape g.
Proof. unfold nii_shape. intros ->. reflexivity. Qed.

(** C1, as the code has it.  For an image and a segmentation stored on
    the same voxel grid (same array shape, same orientation), the two
    chains apply the same reorientation [t] and the same crop region: the transformed tensors have
    the same shape, and index [i] of either shows the voxel of its file at the
    same source position [voxel_source ... i] (rescaled, for the image).  In
    particular a marker that sits at one source position in both files is
    found at the same indices of both transformed tensors. *)
Theorem paired_chains_keep_correspondence
    (files : gmap string Nifti) (R1 R2 : rng) (p_img p_seg : string)
    (img seg : Nifti) (out_i out_s : MetaTensor) :
  files !! p_img = Some img ->
  files !! p_seg = Some seg ->
  nii_dims img = nii_dims seg ->
  nii_ornt img = nii_ornt seg ->
  image_transforms files R1 p_img = Some out_i ->
  seg_transforms files R2 p_seg = Some out_s ->
  let src := voxel_source (nii_shape img) (nii_ornt img) in
  (exists t slices,
      arr out_i = Monai.crop slices (Monai.apply_orientation t
                    (tmap rescale (unsqueeze0 (mkTensor (nii_shape img) (nii_data img)))))
      /\ arr out_s = Monai.crop slices (Monai.apply_orientation t
                       (unsqueeze0 (mkTensor (nii_shape seg) (nii_data seg)))))
  /\ shape (arr out_i) = shape (arr out_s)
  /\ (forall i, data (arr out_i) i = rescale (nii_data img (src i))
                /\ data (arr out_s) i = nii_data seg (src i))
  /\ (forall p m_i m_s,
        marked_at (fun q => rescale (nii_data img q)) m_i p ->
        marked_at (nii_data seg) m_s p ->
        forall i, data (arr out_i) i = m_i <-> data (arr out_s) i = m_s).
Proof.
  intros Hi Hs Hd Ho Houti Houts src.
  pose proof (image_transforms_voxel _ _ _ _ _ Hi Houti) as Vi.
  pose proof (seg_transforms_voxel _ _ _ _ _ Hs Houts) as Vs.
  rewrite <- (nii_shape_dims _ _ Hd), <- Ho in Vs. fold src in Vi, Vs.
  rewrite image_transforms_eq, Hi in Houti.
  rewrite seg_transforms_eq, Hs in Houts.
  cbn [mbind option_bind] in Houti, Houts.
  rewrite <- (nii_shape_dims _ _ Hd), <- Ho in Houts.
  destruct (Monai.ornt_transform (nii_ornt img) ras) as [t|]; [|discriminate].
  injection Houti as <-. injection Houts as <-.
  split; [|split; [|split]].
  - exists t, (crop_slices (Monai.reoriented_shape t (nii_shape img))).
    split; [reflexivity|]. cbn [arr]. rewrite (nii_shape_dims _ _ Hd). reflexivity.
  - reflexivity.
  - intros i. split; [apply Vi | apply Vs].
  - intros p m_i m_s Mi Ms i. rewrite Vi, Vs.
    rewrite (Mi (src i)), (Ms (src i)). reflexivity.
Qed.

Lemma paired_chains_keep_correspondence_example :
  exists out_i out_s,
    image_transforms example_files [] "volume.nii" = Some out_i
    /\ seg_transforms example_files [] "segmentation.nii" = Some out_s
    /\ shape (arr out_i) = shape (arr out_s)
    /\ forall i, data (arr out_i) i = rescale 100 <-> data (arr out_s) i = 1%Q.
Proof.
  eexists. eexists. split; [reflexivity|]. split; [reflexivity|].
  pose proof (paired_chains_keep_correspondence example_files [] []
                "volume.nii" "segmentation.nii" _ _ _ _
                eq_refl eq_refl eq_refl eq_refl eq_refl eq_refl) as (_ & Hsh & _ & Hm).
  split; [exact Hsh|].
  apply (Hm [1; 2; 3]).
  - intros q. cbn [nii_data marker_volume]. destruct (decide (q = [1; 2; 3])) as [->|Hq].
    + split; reflexivity.
    + split; [|intros; contradiction]. vm_compute. discriminate.
  - intros q. cbn [nii_data marker_volume]. destruct (decide (q = [1; 2; 3])) as [->|Hq].
    + split; reflexivity.
    + split; [|intros; contradiction]. discriminate.
Defined.

(** C1, as the specification states it (for every pair), fails.  Each
    chain centres its crop on the volume it is given: of an image of 200
    slices the slices from 20 on are kept, of its segmentation of 180
    slices those from 10 on.  A marker at the array position (1, 2, 100)
    of both files is found at index (0, 1, 2, 80) of the transformed
    image and at index (0, 1, 2, 90) of the transformed segmentation, and
    the two results have different shapes. *)
Lemma unequal_extents_break_correspondence :
  exists img seg out_i out_s,
    uneven_files !! "volume.nii" = Some img
    /\ uneven_files !! "segmentation.nii" = Some seg
    /\ nii_ornt img = nii_ornt seg
    /\ marked_at (fun q => rescale (nii_data img q)) (rescale 100) [1; 2; 100]
    /\ marked_at (nii_data seg) 1%Q [1; 2; 100]
    /\ image_transforms uneven_files [] "volume.nii" = Some out_i
    /\ seg_transforms uneven_files [] "segmentation.nii" = Some out_s
    /\ crop_slices (nii_shape img) !! 2 = Some (20, 180)
    /\ crop_slices (nii_shape seg) !! 2 = Some (10, 170)
    /\ shape (arr out_i) = [1; 4; 4; 160]
    /\ shape (arr out_s) = [1; 4; 4; 160]
    /\ data (arr out_i) [0; 1; 2; 80] = rescale 100
    /\ data (arr out_s) [0; 1; 2; 80] <> 1%Q
    /\ data (arr out_s) [0; 1; 2; 90] = 1%Q
    /\ data (arr out_i) [0; 1; 2; 90] <> rescale 100
    /\ ~ (forall i, data (arr out_i) i = rescale 100 <-> data (arr out_s) i = 1%Q).
Proof.
  eexists. eexists. eexists. eexists.
  split; [reflexivity|]. split; [reflexivity|]. split; [reflexivity|].
  split.
  { intros q. cbn [nii_data marker_volume].
    destruct (decide (q = [1; 2; 100])) as [->|Hq].
    - split; reflexivity.
    - split; [|intros; contradiction]. vm_compute. discriminate. }
  split.
  { intros q. cbn [nii_data marker_volume].
    destruct (decide (q = [1; 2; 100])) as [->|Hq].
    - split; reflexivity.
    - split; [|intros; contradiction]. discriminate. }
  split; [reflexivity|]. split; [reflexivity|].
  split; [vm_compute; reflexivity|]. split; [vm_compute; reflexivity|].
  split; [vm_compute; reflexivity|]. split; [vm_compute; reflexivity|].
  split; [vm_compute; reflexivity|]. split; [vm_compute; discriminate|].
  split; [vm_compute; reflexivity|]. split; [vm_compute; discriminate|].
  intros H. specialize (H [0; 1; 2; 80]). destruct H as [H _].
  assert (E : data (arr (default (mkMeta (mkTensor [] (fun _ => 0%Q)) ras)
                           (seg_transforms uneven_files [] "segmentation.nii")))
                   [0; 1; 2; 80] = 1%Q -> False) by (vm_compute; discriminate).
  apply E. apply H. vm_compute. reflexivity.
Qed.

Lemma centered_extent (d r : nat) :
  r mod 2 = 0 ->
  Monai.sliced_extent d (d / 2 - r / 2, d / 2 - r / 2 + r) = d `min` r.
Proof.
  intros Hr. unfold Monai.sliced_extent. cbn [fst snd].
  pose proof (Nat.div_mod_eq d 2). pose proof (Nat.mod_upper_bound d 2).
  pose proof (Nat.div_mod_eq r 2). lia.
Qed.

(** C2, as the code has it.  Neither chain consults the random state, so
    running a chain again gives the same result.  The last step keeps a
    region centred on the volume, not one anchored at a corner: on an axis
    of extent [d] it starts at [d/2 - roi/2] (at 0 when that is negative)
    and keeps [min d roi] voxels.  The result is 512x512x160 for a volume
    at least that large on every axis; a shorter axis is left as it is. *)
Theorem chains_deterministic_centre_crop :
  (forall files R1 R2 p,
      image_transforms files R1 p = image_transforms files R2 p
      /\ seg_transforms files R1 p = seg_transforms files R2 p)
  /\ (forall R c X Y Z dat o,
        exists out,
          Monai.RandSpatialCrop roi None false Monai.random_size_default R
            (mkMeta (mkTensor [c; X; Y; Z] dat) o) = Some out
          /\ shape (arr out) = [c; X `min` 512; Y `min` 512; Z `min` 160]
          /\ (512 <= X -> 512 <= Y -> 160 <= Z -> shape (arr out) = [c; 512; 512; 160])
          /\ forall ch i j k,
               data (arr out) [ch; i; j; k]
               = dat [ch; X / 2 - 256 + i; Y / 2 - 256 + j; Z / 2 - 80 + k]).
Proof.
  split.
  - intros files R1 R2 p. rewrite !image_transforms_eq, !seg_transforms_eq.
    split; reflexivity.
  - intros R c X Y Z dat o. eexists. split; [reflexivity|].
    assert (Hsh : shape (Monai.crop (crop_slices [X; Y; Z]) (mkTensor [c; X; Y; Z] dat))
                  = [c; X `min` 512; Y `min` 512; Z `min` 160]).
    { change (c :: [ Monai.sliced_extent X (X / 2 - 512 / 2, X / 2 - 512 / 2 + 512);
                     Monai.sliced_extent Y (Y / 2 - 512 / 2, Y / 2 - 512 / 2 + 512);
                     Monai.sliced_extent Z (Z / 2 - 160 / 2, Z / 2 - 160 / 2 + 160) ]
              = [c; X `min` 512; Y `min` 512; Z `min` 160]).
      rewrite !centered_extent by reflexivity. reflexivity. }
    split; [exact Hsh|]. split.
    + intros HX HY HZ. cbn [arr]. 
      change (shape (Monai.crop (crop_slices [X; Y; Z]) (mkTensor [c; X; Y; Z] dat))
              = [c; 512; 512; 160]).
      rewrite Hsh. repeat f_equal; lia.
    + intros ch i j k. reflexivity.
Qed.

Lemma chains_deterministic_centre_crop_example :
  exists out,
    Monai.RandSpatialCrop roi None false Monai.random_size_default [7; 11]
      (mkMeta (mkTensor [1; 600; 512; 161] (fun _ => 0%Q)) ras) = Some out
    /\ shape (arr out) = [1; 512; 512; 160].
Proof.
  destruct chains_deterministic_centre_crop as [_ H].
  destruct (H [7; 11] 1 600 512 161 (fun _ => 0%Q) ras) as (out & Ho & _ & Hfull & _).
  exists out. split; [exact Ho|]. apply Hfull; lia.
Defined.

(** C2, as the specification states it, fails.  A volume of 100 slices
    comes out with 100 slices, not 160; and of a volume of 200 slices the
    chain keeps the slices 20 to 179, a region that touches neither end of
    the axis. *)
Lemma crop_is_not_fixed_extent_at_a_corner :
  (exists out,
      image_transforms example_files [] "short.nii" = Some out
      /\ shape (arr out) = [1; 512; 512; 100]
      /\ shape (arr out) <> [1; 512; 512; 160])
  /\ (exists out,
        seg_transforms example_files [] "long.nii" = Some out
        /\ shape (arr out) = [1; 512; 512; 160]
        /\ data (arr out) [0; 0; 0; 0] = 20%Q
        /\ data (arr out) [0; 0; 0; 159] = 179%Q).
Proof.
  split.
  - eexists. split; [reflexivity|]. split; [vm_compute; reflexivity|].
    vm_compute. discriminate.
  - eexists. split; [reflexivity|]. repeat split; vm_compute; reflexivity.
Qed.

Lemma rescale_clamp (v : Q) :
  (rescale v == clamp ((v - - (2218 # 100)) / (450 - - (2218 # 100))) 0 1)%Q.
Proof.
  unfold rescale, Monai.scale_intensity_range, clamp.
  change (Qeq_bool (amax - amin) 0) with false. cbv iota.
  unfold amin, amax.
  apply Q.min_compat; [|reflexivity].
  apply Q.max_compat; [|reflexivity].
  ring.
Qed.

Lemma rescale_between (v : Q) :
  (- (2218 # 100) <= v <= 450 ->
   0 <= (v - - (2218 # 100)) / (450 - - (2218 # 100)) <= 1)%Q.
Proof.
  intros [Hlo Hhi]. split.
  - apply Qle_shift_div_l; [reflexivity|]. lra.
  - apply Qle_shift_div_r; [reflexivity|]. lra.
Qed.

(** C6. The image chain maps an intensity [v] to
    [clamp((v - (-22.18)) / (450.0 - (-22.18)), 0, 1)]: 0 at or below
    -22.18, 1 at or above 450.0, linear in between (intensities taken as
    exact rationals).  Every voxel of a transformed image is the rescaled
    voxel of the file; every voxel of a transformed segmentation is the
    voxel of the file as it is. *)
Theorem intensity_rescaling_of_images_only :
  (forall v, rescale v == clamp ((v - - (2218 # 100)) / (450 - - (2218 # 100))) 0 1)%Q
  /\ (forall v, v <= - (2218 # 100) -> rescale v == 0)%Q
  /\ (forall v, 450 <= v -> rescale v == 1)%Q
  /\ (forall v, - (2218 # 100) <= v <= 450 ->
        rescale v == (v - - (2218 # 100)) / (450 - - (2218 # 100))
        /\ 0 <= rescale v <= 1)%Q
  /\ (forall files R p f out,
        files !! p = Some f ->
        image_transforms files R p = Some out ->
        forall i, data (arr out) i
                  = rescale (nii_data f (voxel_source (nii_shape f) (nii_ornt f) i)))
  /\ (forall files R p f out,
        files !! p = Some f ->
        seg_transforms files R p = Some out ->
        forall i, data (arr out) i
                  = nii_data f (voxel_source (nii_shape f) (nii_ornt f) i)).
Proof.
  split; [exact rescale_clamp|].
  split; [|split; [|split; [|split]]].
  - intros v Hv. rewrite rescale_clamp. unfold clamp.
    rewrite Q.max_r.
    + apply Q.min_l. discriminate.
    + apply Qle_shift_div_r; [reflexivity|]. lra.
  - intros v Hv. rewrite rescale_clamp. unfold clamp.
    assert (1 <= (v - - (2218 # 100)) / (450 - - (2218 # 100)))%Q as H1.
    { apply Qle_shift_div_l; [reflexivity|]. lra. }
    rewrite Q.max_l by lra. apply Q.min_r. exact H1.
  - intros v Hv. destruct (rescale_between v Hv) as [H0 H1].
    assert (rescale v == (v - - (2218 # 100)) / (450 - - (2218 # 100)))%Q as E.
    { rewrite rescale_clamp. unfold clamp.
      rewrite Q.max_l by exact H0. apply Q.min_l. exact H1. }
    split; [exact E|]. rewrite E. split; assumption.
  - exact image_transforms_voxel.
  - exact seg_transforms_voxel.
Qed.

Lemma intensity_rescaling_of_images_only_example :
  (rescale (- 100) == 0)%Q
  /\ (rescale 1000 == 1)%Q
  /\ (rescale 100 == (12218 # 47218))%Q
  /\ (exists out,
        image_transforms example_files [] "volume.nii" = Some out
        /\ data (arr out) [0; 2; 1; 3] = rescale 100)
  /\ (exists out,
        seg_transforms example_files [] "segmentation.nii" = Some out
        /\ data (arr out) [0; 2; 1; 3] = 1%Q).
Proof.
  destruct intensity_rescaling_of_images_only as (_ & Hlo & Hhi & Hmid & Himg & Hseg).
  split; [apply Hlo; discriminate|].
  split; [apply Hhi; discriminate|].
  split.
  { destruct (Hmid 100%Q) as [E _]; [split; discriminate|]. rewrite E. reflexivity. }
  split.
  - eexists. split; [reflexivity|].
    rewrite (Himg example_files [] "volume.nii" _ _ eq_refl eq_refl). reflexivity.
  - eexists. split; [reflexivity|].
    rewrite (Hseg example_files [] "segmentation.nii" _ _ eq_refl eq_refl). reflexivity.
Defined.

(** ** The evaluation step *)

Lemma Qgtb_lt (x y : Q) : Qgtb x y = true <-> (y < x)%Q.
Proof.
  unfold Qgtb. rewrite negb_true_iff. split.
  - intros H. apply Qnot_le_lt. intros Hle. apply Qle_bool_iff in Hle. congruence.
  - intros H. destruct (Qle_bool x y) eqn:E; [|reflexivity].
    apply Qle_bool_iff in E. exfalso. apply (Qlt_not_le _ _ H E).
Qed.

(** [argmax_from] continues a scan: [pre] has been read, its first
    maximum [b] is at [bi]. *)
Lemma argmax_from_first_max (l pre : list Q) (bi : nat) (b : Q) :
  pre !! bi = Some b ->
  (forall j x, pre !! j = Some x -> (x <= b)%Q) ->
  (forall j x, j < bi -> pre !! j = Some x -> (x < b)%Q) ->
  exists m,
    (pre ++ l) !! argmax_from bi b (length pre) l = Some m
    /\ (forall j x, (pre ++ l) !! j = Some x -> (x <= m)%Q)
    /\ (forall j x, j < argmax_from bi b (length pre) l ->
                    (pre ++ l) !! j = Some x -> (x < m)%Q).
Proof.
  revert pre bi b. induction l as [|x l IH]; intros pre bi b Hb Hmax Hfirst.
  - cbn [argmax_from]. rewrite app_nil_r. exists b. auto.
  - cbn [argmax_from].
    assert (Hlen : length (pre ++ [x]) = S (length pre))
      by (rewrite length_app; cbn; lia).
    replace (pre ++ x :: l) with ((pre ++ [x]) ++ l) by (rewrite <- app_assoc; reflexivity).
    destruct (Qgtb x b) eqn:E.
    + apply Qgtb_lt in E. rewrite <- Hlen. apply IH.
      * rewrite lookup_app_r by lia. rewrite Nat.sub_diag. reflexivity.
      * intros j y Hj. destruct (decide (j < length pre)) as [Hlt|Hge].
        -- rewrite lookup_app_l in Hj by exact Hlt. specialize (Hmax _ _ Hj). lra.
        -- rewrite lookup_app_r in Hj by lia.
           destruct (j - length pre) as [|k]; cbn in Hj; [|discriminate].
           injection Hj as <-. lra.
      * intros j y Hj Hy. rewrite lookup_app_l in Hy by exact Hj.
        specialize (Hmax _ _ Hy). lra.
    + assert (Hle : (x <= b)%Q).
      { apply Qnot_lt_le. intros Hlt. apply Qgtb_lt in Hlt. congruence. }
      rewrite <- Hlen. apply IH.
      * rewrite lookup_app_l by (apply lookup_lt_Some in Hb; exact Hb). exact Hb.
      * intros j y Hj. destruct (decide (j < length pre)) as [Hlt|Hge].
        -- rewrite lookup_app_l in Hj by exact Hlt. eauto.
        -- rewrite lookup_app_r in Hj by lia.
           destruct (j - length pre) as [|k]; cbn in Hj; [|discriminate].
           injection Hj as <-. exact Hle.
      * intros j y Hj Hy. apply lookup_lt_Some in Hb.
        rewrite lookup_app_l in Hy by lia. eauto.
Qed.

Lemma argmax_first_max (l : list Q) :
  l <> [] ->
  exists m,
    l !! argmax l = Some m
    /\ (forall j x, l !! j = Some x -> (x <= m)%Q)
    /\ (forall j x, j < argmax l -> l !! j = Some x -> (x < m)%Q).
Proof.
  destruct l as [|x l]; [congruence|]. intros _. cbn [argmax].
  apply (argmax_from_first_max l [x] 0 x).
  - reflexivity.
  - intros [|j] y Hj; cbn in Hj; [|discriminate]. injection Hj as <-. lra.
  - intros j y Hj. lia.
Qed.

(** The arg-max of the values [f 0, ..., f (C-1)]: the first index at
    which the greatest value is found (0 when there is no value). *)
Lemma argmax_of_values (f : nat -> Q) (C : nat) :
  let k := argmax (f <$> seq 0 C) in
  (C = 0 -> k = 0)
  /\ (0 < C ->
      k < C
      /\ (forall j, j < C -> (f j <= f k)%Q)
      /\ (forall j, j < k -> (f j < f k)%Q)).
Proof.
  intros k. split; [intros ->; reflexivity|]. intros HC.
  assert (Hlook : forall j, j < C -> (f <$> seq 0 C) !! j = Some (f j)).
  { intros j Hj. rewrite list_lookup_fmap, lookup_seq_lt by exact Hj. reflexivity. }
  destruct (argmax_first_max (f <$> seq 0 C)) as (m & Hk & Hmax & Hfirst).
  { destruct C; [lia|discriminate]. }
  fold k in Hk, Hfirst.
  assert (HkC : k < C).
  { apply lookup_lt_Some in Hk. rewrite length_fmap, length_seq in Hk. exact Hk. }
  rewrite (Hlook k HkC) in Hk. injection Hk as <-.
  split; [exact HkC|]. split.
  - intros j Hj. exact (Hmax j _ (Hlook j Hj)).
  - intros j Hj. apply (Hfirst j _ Hj). apply Hlook. lia.
Qed.

Section StepProperties.

Context (sigmoid : Q -> Q) (softmax : list Q -> list Q) (state_dict : Type)
        (unet_eval : UNet -> state_dict -> tensor Q -> index -> Q)
        (unet_train : UNet -> state_dict -> tensor Q -> (index -> Q) * state_dict).

Local Abbreviation step := (evaluation_step sigmoid softmax state_dict unet_eval unet_train).
Local Abbreviation single_pass :=
  (evaluation_step_single_pass sigmoid softmax state_dict unet_eval unet_train).
Local Abbreviation fwd := (forward unet_eval unet_train).

Lemma forward_eval (model : Module_ state_dict) (x : tensor Q) :
  fwd (eval model) x
  = (mkTensor (take 1 (shape x) ++ out_channels (net model) :: drop 2 (shape x))
              (unet_eval (net model) (params model) x),
     eval model).
Proof. reflexivity. Qed.

(** C10. The step with its two forward passes returns what the step with
    a single pass returns, the state of the model included: in evaluation
    mode a pass leaves the model as it is, so the second pass recomputes
    the output of the first, which the step never reads. *)
Theorem second_forward_pass_is_redundant
    (model : Module_ state_dict) (batch : tensor Q * tensor Q) :
  step model batch = single_pass model batch
  /\ (forall outputs logits m1 m2,
        fwd (eval model) batch.1 = (outputs, m1) ->
        fwd m1 batch.1 = (logits, m2) ->
        logits = outputs /\ m1 = eval model /\ m2 = eval model).
Proof.
  split.
  - unfold evaluation_step, evaluation_step_single_pass.
    destruct batch as [images masks]. rewrite !forward_eval. reflexivity.
  - intros outputs logits m1 m2 H1 H2. rewrite forward_eval in H1.
    injection H1 as <- <-. rewrite forward_eval in H2. injection H2 as <- <-.
    auto.
Qed.

(** The logits the step thresholds: the output of its second pass. *)
Lemma step_eq (model : Module_ state_dict) (batch : tensor Q * tensor Q) :
  step model batch =
  let logits := (fwd (fwd (eval model) batch.1).2 batch.1).1 in
  c ← shape logits !! 1;
  Some ((if decide (c = 1)
         then Binary (tmap (fun v => Qgtb (sigmoid v) (1 # 2)) logits)
         else Labels (argmax_dim1 (softmax_dim1 softmax logits)),
         batch.2),
        eval model).
Proof.
  unfold evaluation_step. destruct batch as [images masks].
  rewrite !forward_eval. reflexivity.
Qed.

(** C3. The step derives the prediction from the raw outputs by their
    channel count, the extent of axis 1.  With exactly one channel the
    prediction is [sigmoid(logits) > 0.5]: a voxel is positive iff its
    value after the sigmoid strictly exceeds 1/2.  Otherwise the
    prediction has no channel axis, and at the voxel at position [sp] of
    item [b] it holds the channel [k] at which [softmax(logits, dim=1)]
    is greatest, the first such channel: the softmax is taken over the
    values [logits[b, 0, sp], ..., logits[b, C-1, sp]] of that voxel
    along the channel axis, and [k] ranges over the channels. *)
Theorem prediction_by_channel_count
    (model model' : Module_ state_dict) (batch : tensor Q * tensor Q)
    (predictions : Prediction) (masks : tensor Q) :
  step model batch = Some ((predictions, masks), model') ->
  let logits := (fwd (fwd (eval model) batch.1).2 batch.1).1 in
  masks = batch.2
  /\ (shape logits !! 1 = Some 1 ->
      exists p, predictions = Binary p
                /\ shape p = shape logits
                /\ forall i, data p i = true <-> (1 # 2 < sigmoid (data logits i))%Q)
  /\ (shape logits !! 1 <> Some 1 ->
      exists p C,
        predictions = Labels p
        /\ shape logits !! 1 = Some C
        /\ shape p = take 1 (shape logits) ++ drop 2 (shape logits)
        /\ forall b sp,
             let along_channels := (fun c => data logits (b :: c :: sp)) <$> seq 0 C in
             let prob := fun c => default 0%Q (softmax along_channels !! c) in
             (forall c, data (softmax_dim1 softmax logits) (b :: c :: sp) = prob c)
             /\ exists k,
                  data p (b :: sp) = Z.of_nat k
                  /\ (C = 0 -> k = 0)
                  /\ (0 < C ->
                      k < C
                      /\ (forall j, j < C -> (prob j <= prob k)%Q)
                      /\ (forall j, j < k -> (prob j < prob k)%Q))).
Proof.
  intros Hstep logits. rewrite step_eq in Hstep. cbv zeta in Hstep. fold logits in Hstep.
  destruct (shape logits !! 1) as [C|] eqn:Hc; [|discriminate].
  cbn [mbind option_bind] in Hstep. injection Hstep as Hp Hm _.
  split; [congruence|]. split.
  - intros H1. injection H1 as ->. rewrite decide_True in Hp by reflexivity.
    eexists. split; [symmetry; exact Hp|]. split; [reflexivity|].
    intros i. cbn [data tmap]. apply Qgtb_lt.
  - intros Hne. rewrite decide_False in Hp by congruence.
    eexists. exists C. split; [symmetry; exact Hp|]. split; [reflexivity|].
    split; [reflexivity|].
    intros b sp along_channels prob.
    assert (Hraw : channels_at logits b sp = along_channels).
    { unfold channels_at. rewrite Hc. reflexivity. }
    assert (Hsm : forall c, data (softmax_dim1 softmax logits) (b :: c :: sp) = prob c).
    { intros c. cbn [softmax_dim1 data]. rewrite Hraw. reflexivity. }
    split; [exact Hsm|].
    exists (argmax (prob <$> seq 0 C)). split.
    + cbn [argmax_dim1 data head tail default]. f_equal. f_equal.
      unfold channels_at at 1. cbn [softmax_dim1 shape]. rewrite Hc. cbn [default].
      apply list_fmap_ext. intros i c _. apply Hsm.
    + apply argmax_of_values.
Qed.

End StepProperties.

Lemma second_forward_pass_is_redundant_example :
  let model := mkModule the_model () true in
  let images := mkTensor [1; 1; 2; 2; 3] (fun i => inject_Z (Z.of_nat (length i))) in
  let m1 := (forward example_net example_train (eval model) images).2 in
  (forward example_net example_train m1 images).1
  = (forward example_net example_train (eval model) images).1.
Proof.
  intros model images m1.
  destruct (second_forward_pass_is_redundant example_sigmoid example_softmax unit
              example_net example_train model (images, images)) as [_ H].
  apply (H _ _ m1 (forward example_net example_train m1 images).2); reflexivity.
Defined.

Lemma prediction_by_channel_count_example :
  let images := mkTensor [1; 1; 1; 1; 2]
                  (fun i => if decide (i = [0; 0; 0; 0; 1]) then 1%Q else 0%Q) in
  (exists p model',
      evaluation_step example_sigmoid example_softmax unit example_net example_train
        (mkModule the_model () true) (images, images)
      = Some ((Binary p, images), model')
      /\ data p [0; 0; 0; 0; 0] = false /\ data p [0; 0; 0; 0; 1] = true)
  /\ (exists p model',
        evaluation_step example_sigmoid example_softmax unit
          example_classifier example_classifier_train
          (mkModule (mkUNet 3 1 3 [16; 32] [2] 2) () true) (two_item_batch, two_item_batch)
        = Some ((Labels p, two_item_batch), model')
        /\ shape p = [2; 1; 1; 2]
        /\ data p [0; 0; 0; 0] = 0%Z /\ data p [0; 0; 0; 1] = 2%Z
        /\ data p [1; 0; 0; 0] = 1%Z /\ data p [1; 0; 0; 1] = 2%Z).
Proof.
  intros images. split.
  - destruct (prediction_by_channel_count example_sigmoid example_softmax unit
                example_net example_train (mkModule the_model () true) _
                (images, images) _ _ eq_refl) as (_ & Hb & _).
    destruct (Hb eq_refl) as (p & Hp & _ & Hi).
    exists p. eexists. split; [rewrite <- Hp; reflexivity|]. split.
    + apply not_true_is_false. rewrite Hi. vm_compute. discriminate.
    + apply Hi. vm_compute. reflexivity.
  - destruct (prediction_by_channel_count example_sigmoid example_softmax unit
                example_classifier example_classifier_train
                (mkModule (mkUNet 3 1 3 [16; 32] [2] 2) () true) _
                (two_item_batch, two_item_batch) _ _ eq_refl) as (_ & _ & Hl).
    destruct Hl as (p & C & Hp & HC & Hsh & Hi); [vm_compute; discriminate|].
    assert (C = 3) as -> by (vm_compute in HC; congruence).
    exists p. eexists. split; [rewrite <- Hp; reflexivity|].
    split; [exact Hsh|].
    destruct (Hi 0 [0; 0; 0]) as (_ & k00 & E00 & _ & H00).
    destruct (Hi 0 [0; 0; 1]) as (_ & k01 & E01 & _ & H01).
    destruct (Hi 1 [0; 0; 0]) as (_ & k10 & E10 & _ & H10).
    destruct (Hi 1 [0; 0; 1]) as (_ & k11 & E11 & _ & H11).
    destruct (H00 ltac:(lia)) as (B00 & M00 & F00).
    destruct (H01 ltac:(lia)) as (B01 & M01 & F01).
    destruct (H10 ltac:(lia)) as (B10 & M10 & F10).
    destruct (H11 ltac:(lia)) as (B11 & M11 & F11).
    rewrite E00, E01, E10, E11. clear Hi H00 H01 H10 H11 E00 E01 E10 E11 Hp.
    repeat split.
    + destruct k00 as [|[|[|?]]]; [reflexivity| | |lia]; exfalso;
        specialize (F00 0 ltac:(lia)); apply Qlt_alt in F00;
        vm_compute in F00; discriminate F00.
    + destruct k01 as [|[|[|?]]]; [| |reflexivity|lia]; exfalso;
        specialize (M01 2 ltac:(lia)); apply Qle_bool_iff in M01;
        vm_compute in M01; discriminate M01.
    + destruct k10 as [|[|[|?]]]; [|reflexivity| |lia]; exfalso.
      * specialize (M10 1 ltac:(lia)). apply Qle_bool_iff in M10.
        vm_compute in M10. discriminate M10.
      * specialize (F10 1 ltac:(lia)). apply Qlt_alt in F10.
        vm_compute in F10. discriminate F10.
    + destruct k11 as [|[|[|?]]]; [| |reflexivity|lia]; exfalso;
        specialize (M11 2 ltac:(lia)); apply Qle_bool_iff in M11;
        vm_compute in M11; discriminate M11.
Defined.

(** ** Paths and the renderer *)

Lemma append_assoc (a b c : string) : (a +:+ b) +:+ c = a +:+ (b +:+ c).
Proof.
  induction a as [|x a IH]; [reflexivity|].
  change (String x ((a +:+ b) +:+ c) = String x (a +:+ (b +:+ c))).
  rewrite IH. reflexivity.
Qed.

Lemma ends_with_slash_append (a : string) (c : ascii) (b : string) :
  ends_with_slash (a +:+ String c b) = ends_with_slash (String c b).
Proof.
  induction a as [|x a IH]; [reflexivity|].
  change (String x a +:+ String c b) with (String x (a +:+ String c b)).
  destruct (a +:+ String c b) eqn:E; [destruct a; discriminate|].
  rewrite <- IH. reflexivity.
Qed.

Lemma append_nonempty (a : string) (c : ascii) (b : string) :
  bool_decide (a +:+ String c b = "") = false.
Proof. apply bool_decide_eq_false. destruct a; discriminate. Qed.

(** Joining the working directory with [saved_gifs/name] is joining the
    output directory with [name]. *)
Lemma path_join_saved_gifs (a : string) (c : ascii) (name : string) :
  (forall r, String c name <> String "/" r) ->
  path_join (path_join a "saved_gifs") (String c name)
  = path_join a ("saved_gifs/" +:+ String c name).
Proof.
  intros Hc.
  assert (Hj : forall d, path_join d (String c name)
                         = if bool_decide (d = "") || ends_with_slash d
                           then d +:+ String c name
                           else d +:+ "/" +:+ String c name).
  { intros d. unfold path_join.
    destruct (decide (c = "/"%char)) as [->|Hne]; [exfalso; eapply Hc; reflexivity|].
    destruct c as [[] [] [] [] [] [] [] []]; try reflexivity. congruence. }
  rewrite Hj. unfold path_join.
  change ("saved_gifs/" +:+ String c name)
    with (String "s" ("aved_gifs/" +:+ String c name)).
  cbv iota.
  change (String "s" ("aved_gifs/" +:+ String c name))
    with ("saved_gifs" +:+ "/" +:+ String c name).
  destruct (bool_decide (a = "") || ends_with_slash a).
  - rewrite (append_nonempty a "s" "aved_gifs").
    rewrite (ends_with_slash_append a "s" "aved_gifs").
    change (ends_with_slash "saved_gifs") with false. cbn [orb].
    rewrite append_assoc. reflexivity.
  - change ("/" +:+ "saved_gifs") with "/saved_gifs".
    rewrite (append_nonempty a "/" "saved_gifs").
    rewrite (ends_with_slash_append a "/" "saved_gifs").
    change (ends_with_slash "/saved_gifs") with false. cbn [orb].
    rewrite !append_assoc. reflexivity.
Qed.

Lemma gif_generator_rendering (img : ndarray) (ani : Animation) :
  gif_generator img = Some ani -> rendering_of img ani.
Proof.
  intros H. split; [exact H|]. unfold gif_generator in H.
  apply bind_Some in H as (n & Hn & H).
  apply bind_Some in H as (_ & _ & H). injection H as <-.
  cbn [interval frames]. rewrite Hn. cbn [default].
  split; [reflexivity|]. rewrite length_fmap, length_seq.
  split; [reflexivity|].
  intros k Hk. rewrite list_lookup_fmap, lookup_seq_lt by exact Hk. reflexivity.
Qed.

Lemma gif_saved (root : string) (idx : nat) (img : ndarray) f ani :
  (ani' ← gif_generator img;
   Some (path_join root ("saved_gifs/mask" +:+ str idx +:+ ".gif"), ani'))
  = Some (f, ani) ->
  f = path_join root ("saved_gifs/mask" +:+ str idx +:+ ".gif")
  /\ rendering_of img ani.
Proof.
  intros H. apply bind_Some in H as (a & Ha & H). injection H as <- <-.
  split; [reflexivity|]. apply gif_generator_rendering. exact Ha.
Qed.

(** ** The evaluation loop *)

Lemma stack_singleton (x : tensor Q) :
  stack [x] = Some (mkTensor (1 :: shape x)
                      (fun i => match [x] !! default 0 (head i) with
                                | Some t => data t (tail i)
                                | None => 0%Q
                                end)).
Proof.
  unfold stack. cbn [head mbind option_bind].
  rewrite option_guard_True by (constructor; [reflexivity|constructor]).
  reflexivity.
Qed.

Lemma times_one_binary (p : tensor bool) (i : index) :
  data (times_one (Binary p)) i = 0%Z \/ data (times_one (Binary p)) i = 1%Z.
Proof. cbn. destruct (data p i); auto. Qed.

Lemma save_segmentation_masks_records (p : Prediction) (gt : tensor Q)
    (store store' : list (tensor Z * tensor Q)) :
  save_segmentation_masks (p, gt) store = Some store' ->
  exists records,
    store' = store ++ records
    /\ length records = default 0 (head (prediction_shape p))
    /\ forall idx r, records !! idx = Some r ->
                     r = (times_one (prediction_select0 idx p), select0 idx gt).
Proof.
  unfold save_segmentation_masks. intros H.
  apply bind_Some in H as (records & Hm & H). injection H as <-.
  exists records. split; [reflexivity|].
  apply mapM_Some in Hm. split.
  - apply Forall2_length in Hm. rewrite length_seq in Hm. auto.
  - intros idx r Hr.
    destruct (Forall2_lookup_r _ _ _ _ _ Hm Hr) as (k & Hk & Hf).
    apply lookup_seq in Hk as [-> _]. cbn in Hf.
    apply bind_Some in Hf as (_ & _ & Hf). congruence.
Qed.

Section RunProperties.

Context (sigmoid : Q -> Q) (softmax : list Q -> list Q) (state_dict : Type)
        (state_dict_fits : UNet -> state_dict -> bool)
        (unet_eval : UNet -> state_dict -> tensor Q -> index -> Q)
        (unet_train : UNet -> state_dict -> tensor Q -> (index -> Q) * state_dict)
        (dice_of_labels : tensor Z -> tensor Q -> option (list (list (option Q))))
        (metric_value : Type)
        (Recall Precision : bool -> IgniteMetric metric_value).

Local Abbreviation fwd := (forward unet_eval unet_train).
Local Abbreviation step :=
  (evaluation_step sigmoid softmax state_dict unet_eval unet_train).
Local Abbreviation iter :=
  (iteration sigmoid softmax state_dict unet_eval unet_train dice_of_labels
             metric_value Recall Precision).
Local Abbreviation iters :=
  (iterations sigmoid softmax state_dict unet_eval unet_train dice_of_labels
              metric_value Recall Precision).
Local Abbreviation run :=
  (evaluator_run sigmoid softmax state_dict unet_eval unet_train dice_of_labels
                 metric_value Recall Precision).
Local Abbreviation script :=
  (generate_output sigmoid softmax state_dict state_dict_fits unet_eval unet_train
                   dice_of_labels metric_value Recall Precision).
Local Abbreviation state := (EvalState state_dict metric_value Recall Precision).

Lemma step_model (m m' : Module_ state_dict) batch out :
  step m batch = Some (out, m') -> m' = eval m /\ out.2 = batch.2.
Proof.
  rewrite step_eq. cbv zeta. intros H.
  apply bind_Some in H as (c & _ & H). injection H as <- <-. auto.
Qed.

Lemma step_batch_extent (m m' : Module_ state_dict) batch out :
  step m batch = Some (out, m') ->
  head (prediction_shape out.1) = head (shape batch.1).
Proof.
  rewrite step_eq. cbv zeta. intros H.
  apply bind_Some in H as (c & Hc & H). injection H as <- _.
  cbn [fst]. destruct batch as [[sh d] masks]. cbn [fst shape] in *.
  destruct sh as [|b sh]; [discriminate|].
  destruct (decide (c = 1)); reflexivity.
Qed.

Lemma iteration_inv (st st' : state) batch :
  iter st batch = Some st' ->
  exists p,
    step (model st) batch = Some ((p, batch.2), eval (model st))
    /\ model st' = eval (model st)
    /\ update_dice_metric dice_of_labels (p, batch.2) (dice_buffer st)
       = Some (dice_buffer st')
    /\ save_segmentation_masks (p, batch.2) (store_predictions st)
       = Some (store_predictions st').
Proof.
  unfold iteration. intros H.
  apply bind_Some in H as ([[p masks] m] & Hstep & H).
  apply bind_Some in H as (buf & Hbuf & H).
  apply bind_Some in H as (r & _ & H).
  apply bind_Some in H as (pr & _ & H).
  apply bind_Some in H as (store & Hstore & H).
  injection H as <-. cbn [model dice_buffer store_predictions].
  destruct (step_model _ _ _ _ Hstep) as [-> Hm]. cbn [snd] in Hm. subst masks.
  exists p. auto.
Qed.

Lemma step_binary (m m' : Module_ state_dict) batch out :
  net m = the_model ->
  step m batch = Some (out, m') ->
  net m' = the_model
  /\ exists p, out.1 = Binary p
               /\ shape p !! 1 = Some 1
               /\ p = tmap (fun v => Qgtb (sigmoid v) (1 # 2))
                           (fwd (fwd (eval m) batch.1).2 batch.1).1.
Proof.
  intros Hnet H. rewrite step_eq in H. cbv zeta in H.
  rewrite forward_eval in H. cbn [snd] in H.
  rewrite forward_eval in H. cbn [fst shape] in H.
  apply bind_Some in H as (c & Hc & H). injection H as <- <-.
  split; [exact Hnet|].
  rewrite Hnet in Hc. cbn [out_channels the_model] in Hc.
  destruct (shape batch.1) as [|b sh] eqn:Hsh; [discriminate|].
  cbn in Hc. injection Hc as <-. rewrite decide_True by reflexivity.
  eexists. split; [reflexivity|]. split.
  - cbn [tmap shape]. rewrite ?Hnet, ?Hsh. reflexivity.
  - rewrite forward_eval. cbn [snd]. rewrite forward_eval. cbn [fst].
    rewrite ?Hnet, ?Hsh. reflexivity.
Qed.

(** C9. The network is built with one output channel, so the logits of
    every batch have exactly one channel, the step always takes the
    sigmoid-threshold branch and never the arg-max one, and every stored
    prediction holds only the values 0 and 1. *)
Theorem multiclass_branch_unreachable :
  (forall sd tr x, shape x <> [] ->
                   shape (fwd (mkModule the_model sd tr) x).1 !! 1 = Some 1)
  /\ (forall m m' batch out,
        net m = the_model ->
        step m batch = Some (out, m') ->
        exists p, out.1 = Binary p
                  /\ p = tmap (fun v => Qgtb (sigmoid v) (1 # 2))
                              (fwd (fwd (eval m) batch.1).2 batch.1).1)
  /\ (forall (st st' : state) batches,
        net (model st) = the_model ->
        (forall r i, r ∈ store_predictions st -> data r.1 i = 0%Z \/ data r.1 i = 1%Z) ->
        iters st batches = Some st' ->
        forall r i, r ∈ store_predictions st' -> data r.1 i = 0%Z \/ data r.1 i = 1%Z).
Proof.
  split; [|split].
  - intros sd tr x Hx. unfold forward. cbn [net params training the_model out_channels].
    destruct (shape x) as [|b sh] eqn:Hsh; [congruence|].
    destruct tr; [destruct (unet_train _ _ _)|]; cbn [fst shape]; rewrite ?Hsh; reflexivity.
  - intros m m' batch out Hnet H.
    destruct (step_binary _ _ _ _ Hnet H) as (_ & p & Hp & _ & Hq). eauto.
  - intros st st' batches. revert st.
    induction batches as [|batch rest IH]; intros st Hnet Hstore H r i Hr.
    + injection H as <-. eauto.
    + cbn [iterations] in H. apply bind_Some in H as (st1 & H1 & H).
      apply iteration_inv in H1 as (p & Hstep & Hm & _ & Hsave).
      destruct (step_binary _ _ _ _ Hnet Hstep) as (_ & b & Hb & _).
      cbn [fst] in Hb. subst p.
      apply (IH st1); [rewrite Hm; exact Hnet| |exact H|exact Hr].
      intros r' i' Hr'.
      apply save_segmentation_masks_records in Hsave as (records & Hst & _ & Hrec).
      rewrite Hst in Hr'. apply elem_of_app in Hr' as [Hr'|Hr']; [eauto|].
      apply list_elem_of_lookup in Hr' as (idx & Hidx).
      rewrite (Hrec _ _ Hidx). cbn [fst prediction_select0].
      apply times_one_binary.
Qed.

Lemma loader_of_two getitem batches :
  DataLoader 2 getitem 1 = Some batches ->
  exists x0 y0 x1 y1 bx0 by0 bx1 by1,
    getitem 0 = Some (x0, y0) /\ getitem 1 = Some (x1, y1)
    /\ stack [x0] = Some bx0 /\ stack [y0] = Some by0
    /\ stack [x1] = Some bx1 /\ stack [y1] = Some by1
    /\ batches = [(bx0, by0); (bx1, by1)].
Proof.
  unfold DataLoader. change (batched 1 [] (seq 0 2)) with [[0]; [1]].
  intros H. cbn [mapM] in H.
  apply bind_Some in H as (b0 & H0 & H).
  apply bind_Some in H as (bs & H1 & H). injection H as <-.
  apply bind_Some in H1 as (b1 & H1 & H). injection H as <-.
  apply bind_Some in H0 as (items0 & Hi0 & H0).
  apply bind_Some in Hi0 as ([x0 y0] & Hg0 & Hi0). injection Hi0 as <-.
  apply bind_Some in H0 as (bx0 & Hx0 & H0).
  apply bind_Some in H0 as (by0 & Hy0 & H0). injection H0 as <-.
  apply bind_Some in H1 as (items1 & Hi1 & H1).
  apply bind_Some in Hi1 as ([x1 y1] & Hg1 & Hi1). injection Hi1 as <-.
  apply bind_Some in H1 as (bx1 & Hx1 & H1).
  apply bind_Some in H1 as (by1 & Hy1 & H1). injection H1 as <-.
  exists x0, y0, x1, y1, bx0, by0, bx1, by1. auto 10.
Qed.

Lemma one_record_per_item (st st' : state) x y bx by_ :
  stack [x] = Some bx -> stack [y] = Some by_ ->
  iter st (bx, by_) = Some st' ->
  exists p r,
    step (model st) (bx, by_) = Some ((p, by_), eval (model st))
    /\ model st' = eval (model st)
    /\ store_predictions st' = store_predictions st ++ [r]
    /\ r.1 = times_one (prediction_select0 0 p)
    /\ shape r.2 = shape y
    /\ forall i, data r.2 i = data y i.
Proof.
  intros Hx Hy H. apply iteration_inv in H as (p & Hstep & Hm & _ & Hsave).
  cbn [snd] in *. exists p.
  apply save_segmentation_masks_records in Hsave as (records & Hst & Hlen & Hrec).
  pose proof (step_batch_extent _ _ _ _ Hstep) as He. cbn [fst] in He.
  rewrite He in Hlen.
  rewrite stack_singleton in Hx, Hy. injection Hx as <-. injection Hy as <-.
  cbn in Hlen. destruct records as [|r [|? ?]]; try discriminate.
  exists r. specialize (Hrec 0 r eq_refl). subst r. auto 10.
Qed.

(** C4. When the loop has run over the loader of the two pairs, starting
    with nothing stored, [store_predictions] holds exactly two records:
    the first is the thresholded prediction for the first image with the
    first segmentation, the second the same for the second pair. *)
Theorem one_record_per_pair_in_order
    (img_transform seg_transform : rng -> string -> option MetaTensor)
    (seeds : nat -> rng) (i0 i1 s0 s1 : string)
    (st st' : state) (batches : list (tensor Q * tensor Q)) :
  DataLoader (length [i0; i1] `min` length [s0; s1])
    (ArrayDataset_getitem [i0; i1] img_transform [s0; s1] seg_transform seeds) 1
  = Some batches ->
  store_predictions st = [] ->
  iters st batches = Some st' ->
  length (store_predictions st') = 2
  /\ exists x0 y0 x1 y1 bx0 by0 bx1 by1 p0 p1 r0 r1,
       img_transform (seeds 0) i0 = Some x0 /\ seg_transform (seeds 0) s0 = Some y0
       /\ img_transform (seeds 1) i1 = Some x1 /\ seg_transform (seeds 1) s1 = Some y1
       /\ stack [arr x0] = Some bx0 /\ stack [arr y0] = Some by0
       /\ stack [arr x1] = Some bx1 /\ stack [arr y1] = Some by1
       /\ step (model st) (bx0, by0) = Some ((p0, by0), eval (model st))
       /\ step (eval (model st)) (bx1, by1) = Some ((p1, by1), eval (model st))
       /\ store_predictions st' = [r0; r1]
       /\ r0.1 = times_one (prediction_select0 0 p0)
       /\ shape r0.2 = shape (arr y0) /\ (forall i, data r0.2 i = data (arr y0) i)
       /\ r1.1 = times_one (prediction_select0 0 p1)
       /\ shape r1.2 = shape (arr y1) /\ (forall i, data r1.2 i = data (arr y1) i).
Proof.
  intros Hload Hempty Hrun.
  apply loader_of_two in Hload
    as (a0 & c0 & a1 & c1 & bx0 & by0 & bx1 & by1 & Hg0 & Hg1 & Hx0 & Hy0 & Hx1 & Hy1 & ->).
  unfold ArrayDataset_getitem in Hg0, Hg1. cbn [lookup list_lookup mbind option_bind] in Hg0, Hg1.
  apply bind_Some in Hg0 as (x0 & Ex0 & Hg0).
  apply bind_Some in Hg0 as (y0 & Ey0 & Hg0). injection Hg0 as <- <-.
  apply bind_Some in Hg1 as (x1 & Ex1 & Hg1).
  apply bind_Some in Hg1 as (y1 & Ey1 & Hg1). injection Hg1 as <- <-.
  cbn [iterations] in Hrun.
  apply bind_Some in Hrun as (st1 & H1 & Hrun).
  apply bind_Some in Hrun as (st2 & H2 & Hrun). injection Hrun as <-.
  destruct (one_record_per_item _ _ _ _ _ _ Hx0 Hy0 H1)
    as (p0 & r0 & Hs0 & Hm0 & Hst0 & Hp0 & Hsh0 & Hd0).
  destruct (one_record_per_item _ _ _ _ _ _ Hx1 Hy1 H2)
    as (p1 & r1 & Hs1 & Hm1 & Hst1 & Hp1 & Hsh1 & Hd1).
  rewrite Hm0 in Hs1. rewrite Hst0, Hempty in Hst1. cbn [app] in Hst1.
  split; [rewrite Hst1; reflexivity|].
  exists x0, y0, x1, y1, bx0, by0, bx1, by1, p0, p1, r0, r1.
  repeat (split; [assumption|]). assumption.
Qed.

(** ** The whole script *)

Lemma evaluator_run_inv (st0 st : state) batches metrics printed :
  run st0 batches = Some (st, metrics, printed) ->
  exists dice recall precision,
    iters (mkEvalState (model st0) (dice_buffer st0) (reset (Recall true))
                       (reset (Precision false)) (store_predictions st0))
          batches = Some st
    /\ Dice.aggregate (dice_buffer st) = Some dice
    /\ printed = [MeanDice dice]
    /\ metrics = <["precision" := precision]> (<["recall" := recall]> ∅).
Proof.
  unfold evaluator_run. intros H.
  apply bind_Some in H as (st1 & Hit & H).
  apply bind_Some in H as (recall & _ & H).
  apply bind_Some in H as (precision & _ & H).
  apply bind_Some in H as (l & Hl & H). injection H as <- <- <-.
  unfold log_mean_dice in Hl. apply bind_Some in Hl as (dice & Hd & Hl).
  injection Hl as <-. exists dice, recall, precision. auto.
Qed.

Lemma generate_output_inv (w : World state_dict) res eff :
  script w = Some (res, eff) ->
  exists weights dirs getitem batches st metrics printed dice recall precision r0 r1 gifs,
    makedirs (path_join (cwd w) "saved_gifs") true (directories w) = Some dirs
    /\ DataLoader 2 getitem 1 = Some batches
    /\ run (mkEvalState (mkModule the_model weights true) [] (reset (Recall true))
                        (reset (Precision false)) [])
           batches = Some (st, metrics, printed)
    /\ Dice.aggregate (dice_buffer st) = Some dice
    /\ metrics !! "recall" = Some recall
    /\ metrics !! "precision" = Some precision
    /\ store_predictions st !! 0 = Some r0
    /\ store_predictions st !! 1 = Some r1
    /\ mapM (fun '(idx, img) =>
               ani ← gif_generator img;
               Some (path_join (cwd w) ("saved_gifs/mask" +:+ str idx +:+ ".gif"), ani))
            (imap pair [IntArray (T (squeeze r0.1)); FloatArray (T (squeeze r0.2));
                        IntArray (T (squeeze r1.1)); FloatArray (T (squeeze r1.2))])
       = Some gifs
    /\ res = (dice, recall, precision)
    /\ eff = mkEffects
               ((([Text "Initiating testing..."] ++ printed)
                   ++ [RecallPrecision recall precision])
                  ++ [Text "Initiating GIF Generation"])
               dirs gifs.
Proof.
  unfold generate_output. intros H.
  apply bind_Some in H as (weights & _ & H).
  apply bind_Some in H as (_ & _ & H).
  apply bind_Some in H as (dirs & Hdirs & H).
  apply bind_Some in H as (batches & Hload & H).
  apply bind_Some in H as ([[st metrics] printed] & Hrun & H).
  apply bind_Some in H as (dice & Hdice & H).
  apply bind_Some in H as (recall & Hrec & H).
  apply bind_Some in H as (precision & Hprec & H).
  apply bind_Some in H as (r0 & Hr0 & H).
  apply bind_Some in H as (r1 & Hr1 & H).
  apply bind_Some in H as (gifs & Hgifs & H).
  injection H as <- <-.
  eexists weights, dirs, _, batches, st, metrics, printed, dice, recall, precision,
          r0, r1, gifs.
  split; [exact Hdirs|]. split; [exact Hload|]. auto 12.
Qed.


Lemma two_records_stored getitem (st st' : state) batches :
  DataLoader 2 getitem 1 = Some batches ->
  store_predictions st = [] ->
  iters st batches = Some st' ->
  exists r0 r1, store_predictions st' = [r0; r1].
Proof.
  intros Hload Hempty Hrun.
  apply loader_of_two in Hload
    as (x0 & y0 & x1 & y1 & bx0 & by0 & bx1 & by1 & _ & _ & Hx0 & Hy0 & Hx1 & Hy1 & ->).
  cbn [iterations] in Hrun.
  apply bind_Some in Hrun as (st1 & H1 & Hrun).
  apply bind_Some in Hrun as (st2 & H2 & Hrun). injection Hrun as <-.
  destruct (one_record_per_item _ _ _ _ _ _ Hx0 Hy0 H1) as (_ & r0 & _ & _ & Hst0 & _).
  destruct (one_record_per_item _ _ _ _ _ _ Hx1 Hy1 H2) as (_ & r1 & _ & _ & Hst1 & _).
  exists r0, r1. rewrite Hst1, Hst0, Hempty. reflexivity.
Qed.

(** C8. When the script returns, it has made sure the directory
    [saved_gifs] of the working directory exists and has written four
    files into it, [mask0.gif] to [mask3.gif], one per tensor of the two
    stored records: prediction and ground truth of the first, prediction
    and ground truth of the second.  Each file is the rendering of its
    tensor (squeezed and transposed): one frame per slice of the leading
    axis, titled with the frame index, 300 ms apart. *)
Theorem four_gifs_one_frame_per_slice (w : World state_dict) res
    (eff : Effects metric_value) :
  script w = Some (res, eff) ->
  let output_dir := path_join (cwd w) "saved_gifs" in
  directories_after eff = {[ output_dir ]} ∪ directories w
  /\ exists weights batches (st : state) metrics printed r0 r1 a0 a1 a2 a3,
       run (mkEvalState (mkModule the_model weights true) [] (reset (Recall true))
                        (reset (Precision false)) [])
           batches = Some (st, metrics, printed)
       /\ store_predictions st = [r0; r1]
       /\ saved eff = [ (path_join output_dir "mask0.gif", a0);
                        (path_join output_dir "mask1.gif", a1);
                        (path_join output_dir "mask2.gif", a2);
                        (path_join output_dir "mask3.gif", a3) ]
       /\ Forall2 rendering_of
            [ IntArray (T (squeeze r0.1)); FloatArray (T (squeeze r0.2));
              IntArray (T (squeeze r1.1)); FloatArray (T (squeeze r1.2)) ]
            [a0; a1; a2; a3].
Proof.
  intros H output_dir. apply generate_output_inv in H
    as (weights & dirs & getitem & batches & st & metrics & printed & dice & rec & prec
        & r0 & r1 & gifs & Hdirs & Hload & Hrun & _ & _ & _ & Hr0 & Hr1 & Hgifs & _ & ->).
  cbn [directories_after saved]. split.
  - fold output_dir in Hdirs. unfold makedirs in Hdirs.
    destruct (decide (output_dir ∈ directories w)) as [Hin|Hout].
    + assert (dirs = directories w) as -> by congruence.
      symmetry. apply subseteq_union_1_L, singleton_subseteq_l. exact Hin.
    + congruence.
  - pose proof Hrun as Hit.
    apply evaluator_run_inv in Hit as (_ & _ & _ & Hit & _).
    pose proof (fun E => two_records_stored _ _ _ _ Hload E Hit) as Htwo.
    destruct (Htwo eq_refl) as (q0 & q1 & Hst).
    rewrite Hst in Hr0, Hr1. injection Hr0 as <-. injection Hr1 as <-.
    cbn [imap mapM] in Hgifs.
    apply bind_Some in Hgifs as ([f0 a0] & H0 & Hgifs).
    apply bind_Some in Hgifs as (l1 & Hgifs & E0). injection E0 as <-.
    apply bind_Some in Hgifs as ([f1 a1] & H1 & Hgifs).
    apply bind_Some in Hgifs as (l2 & Hgifs & E1). injection E1 as <-.
    apply bind_Some in Hgifs as ([f2 a2] & H2 & Hgifs).
    apply bind_Some in Hgifs as (l3 & Hgifs & E2). injection E2 as <-.
    apply bind_Some in Hgifs as ([f3 a3] & H3 & Hgifs).
    apply bind_Some in Hgifs as (l4 & Hgifs & E3). injection E3 as <-.
    injection Hgifs as <-.
    exists weights, batches, st, metrics, printed, q0, q1, a0, a1, a2, a3.
    split; [exact Hrun|]. split; [exact Hst|].
    apply gif_saved in H0 as [-> R0]. apply gif_saved in H1 as [-> R1].
    apply gif_saved in H2 as [-> R2]. apply gif_saved in H3 as [-> R3].
    split.
    + unfold output_dir.
      rewrite !(path_join_saved_gifs (cwd w)) by (intros ? [=]).
      reflexivity.
    + repeat (constructor; [assumption|]). constructor.
Qed.
End RunProperties.

(** ** The Dice metric *)

Lemma of_nat_S (n : nat) : (Dice.of_nat (S n) == Dice.of_nat n + 1)%Q.
Proof.
  unfold Dice.of_nat. rewrite Nat2Z.inj_succ, <- Z.add_1_r, inject_Z_plus.
  reflexivity.
Qed.

Lemma of_nat_pos (n : nat) : 0 < n -> (0 < Dice.of_nat n)%Q.
Proof.
  intros H. unfold Dice.of_nat, Qlt. cbn. lia.
Qed.

Lemma qsum_constant (c : Q) (l : list Q) :
  Forall (fun x => x == c)%Q l -> (Dice.qsum l == Dice.of_nat (length l) * c)%Q.
Proof.
  induction 1 as [|x l Hx _ IH]; cbn [Dice.qsum foldr length].
  - reflexivity.
  - fold (Dice.qsum l). rewrite IH, Hx, of_nat_S. ring.
Qed.

(** The sum of an indicator is the number of its points. *)
Lemma qsum_indicator {A} (f : A -> bool) (x : A -> Q) (l : list A) :
  (forall a, a ∈ l -> x a = if f a then 1%Q else 0%Q) ->
  (Dice.qsum (x <$> l) == Dice.of_nat (length (filter (fun a => f a) l)))%Q.
Proof.
  induction l as [|a l IH]; intros H.
  - reflexivity.
  - cbn [fmap list_fmap Dice.qsum foldr]. fold (Dice.qsum (x <$> l)).
    rewrite IH by (intros b Hb; apply H; right; exact Hb).
    rewrite (H a) by left. rewrite filter_cons.
    destruct (f a) eqn:E.
    + rewrite decide_True by exact I. cbn [length].
      rewrite of_nat_S. ring.
    + rewrite decide_False by (intros []). ring.
Qed.

Lemma elem_of_indices_cons (d : nat) (sh : list nat) (i : index) :
  i ∈ indices (d :: sh) <-> exists b i', i = b :: i' /\ b < d /\ i' ∈ indices sh.
Proof.
  cbn [indices]. rewrite list_elem_of_bind. split.
  - intros (b & Hi & Hb). apply elem_of_seq in Hb.
    apply list_elem_of_fmap in Hi as (i' & -> & Hi').
    exists b, i'. split; [reflexivity|]. split; [lia|exact Hi'].
  - intros (b & i' & -> & Hb & Hi'). exists b. split.
    + apply list_elem_of_fmap. eauto.
    + apply elem_of_seq. lia.
Qed.

Lemma elem_of_item_voxel (B : nat) (sp : list nat) (b : nat) (i : index) :
  b < B -> i ∈ indices sp -> (b :: 0 :: i) ∈ indices (B :: 1 :: sp).
Proof.
  intros Hb Hi. apply elem_of_indices_cons. exists b, (0 :: i).
  split; [reflexivity|]. split; [exact Hb|].
  apply elem_of_indices_cons. exists 0, i. auto.
Qed.

Lemma compute_dice_single (p : tensor bool) (y : tensor Q) (B : nat) (sp : list nat) :
  shape p = B :: 1 :: sp -> shape y = B :: 1 :: sp -> sp <> [] ->
  Dice.compute_dice p y
  = Some ((fun b => [ Dice.compute_channel sp
                        (fun i => data p (b :: 0 :: i))
                        (fun i => if positive y (b :: 0 :: i) then 1%Q else 0%Q) ])
          <$> seq 0 B).
Proof.
  intros Hp Hy Hsp. unfold Dice.compute_dice. rewrite Hp, Hy.
  rewrite option_guard_True by reflexivity. cbn [mbind option_bind].
  rewrite option_guard_True by (destruct sp; [congruence|cbn; lia]).
  reflexivity.
Qed.

(** A channel on which prediction and mask agree scores 1, or has no
    score when both are empty. *)
Lemma compute_channel_matching (sp : list nat) (x_pred : index -> bool) (x : index -> Q) :
  (forall i, i ∈ indices sp -> x i = if x_pred i then 1%Q else 0%Q) ->
  ((forall i, i ∈ indices sp -> x_pred i = false)
   /\ Dice.compute_channel sp x_pred x = None)
  \/ ((exists i, i ∈ indices sp /\ x_pred i = true)
      /\ exists d, Dice.compute_channel sp x_pred x = Some d /\ (d == 1)%Q).
Proof.
  intros Hx. unfold Dice.compute_channel.
  remember (filter (fun i => x_pred i) (indices sp)) as sel eqn:Hsel.
  assert (Hmem : forall i, i ∈ sel <-> x_pred i = true /\ i ∈ indices sp).
  { intros i. rewrite Hsel, list_elem_of_filter.
    destruct (x_pred i); cbn; intuition congruence. }
  assert (Hyo : (Dice.qsum (x <$> indices sp) == Dice.of_nat (length sel))%Q)
    by (rewrite Hsel; apply qsum_indicator; exact Hx).
  assert (Hin : (Dice.qsum (x <$> sel) == Dice.of_nat (length sel))%Q).
  { rewrite qsum_constant with (c := 1%Q).
    - rewrite length_fmap. ring.
    - apply Forall_fmap, Forall_forall. intros i Hi.
      apply Hmem in Hi as [Hp Hi]. cbn. rewrite (Hx i Hi), Hp. reflexivity. }
  destruct sel as [|i0 sel'].
  - left. split.
    + intros i Hi. destruct (x_pred i) eqn:E; [|reflexivity].
      assert (Hf : i ∈ @nil index) by (apply Hmem; auto). inversion Hf.
    + assert (Hg : Qgtb (Dice.qsum (x <$> indices sp)) 0 = false).
      { apply not_true_is_false. intros Hg. apply Qgtb_lt in Hg.
        rewrite Hyo in Hg. revert Hg. apply Qlt_irrefl. }
      rewrite Hg. reflexivity.
  - right. split.
    + exists i0. apply and_comm, Hmem. left.
    + assert (Hpos : (0 < Dice.of_nat (length (i0 :: sel')))%Q)
        by (apply of_nat_pos; cbn; lia).
      assert (Hg : Qgtb (Dice.qsum (x <$> indices sp)) 0 = true)
        by (apply Qgtb_lt; rewrite Hyo; exact Hpos).
      rewrite Hg. eexists. split; [reflexivity|].
      rewrite Hin, Hyo. field. lra.
Qed.

(** A channel on which prediction and mask have nothing in common scores
    0, or has no score. *)
Lemma compute_channel_disjoint (sp : list nat) (x_pred : index -> bool) (x : index -> Q) :
  (forall i, i ∈ indices sp -> x_pred i = true -> x i = 0%Q) ->
  Dice.compute_channel sp x_pred x = None
  \/ exists d, Dice.compute_channel sp x_pred x = Some d /\ (d == 0)%Q.
Proof.
  intros Hx. unfold Dice.compute_channel.
  destruct (Qgtb (Dice.qsum (x <$> indices sp)) 0); [right|left; reflexivity].
  eexists. split; [reflexivity|].
  rewrite (qsum_constant 0%Q).
  - unfold Qdiv. ring.
  - apply Forall_fmap, Forall_forall. intros i Hi.
    apply list_elem_of_filter in Hi as [Hp Hi]. cbn.
    rewrite (Hx i Hi); [reflexivity|]. destruct (x_pred i); [reflexivity|destruct Hp].
Qed.

Lemma channel_mean_nan : Dice.channel_mean [None] = 0%Q.
Proof. reflexivity. Qed.

Lemma channel_mean_score (d : Q) : (Dice.channel_mean [Some d] == d)%Q.
Proof.
  unfold Dice.channel_mean. change (Dice.not_nans [Some d]) with 1.
  rewrite decide_True by lia.
  change (omap id [Some d]) with [d]. change (Dice.qsum [d]) with (d + 0)%Q.
  change (Dice.of_nat 1) with 1%Q. field.
Qed.

(** Rows that score 1 or nothing, one of them scoring: the mean is 1. *)
Lemma mean_reduction_ones (rows : list (list (option Q))) :
  Forall (fun row => row = [None] \/ exists d, row = [Some d] /\ (d == 1)%Q) rows ->
  Exists (fun row => exists d, row = [Some d]) rows ->
  (Dice.mean_reduction rows == 1)%Q.
Proof.
  intros Hall Hex. unfold Dice.mean_reduction.
  set (scored := filter (fun row => 0 < Dice.not_nans row) rows).
  assert (Hsum : (Dice.qsum (Dice.channel_mean <$> rows)
                  == Dice.of_nat (length scored))%Q).
  { subst scored. clear Hex. induction Hall as [|row rows Hrow _ IH]; [reflexivity|].
    cbn [fmap list_fmap Dice.qsum foldr].
    fold (Dice.qsum (Dice.channel_mean <$> rows)). rewrite IH, filter_cons.
    destruct Hrow as [->|(d & -> & Hd)].
    - rewrite channel_mean_nan. rewrite decide_False by (cbn; lia). ring.
    - rewrite decide_True by (cbn; lia). cbn [length].
      rewrite of_nat_S, channel_mean_score. setoid_rewrite Hd. ring. }
  assert (Hn : 0 < length scored).
  { subst scored. clear Hsum Hall. induction Hex as [row rows (d & ->)|row rows _ IH].
    - rewrite filter_cons, decide_True by (cbn; lia). cbn. lia.
    - rewrite filter_cons. destruct (decide _); cbn [length]; lia. }
  rewrite decide_True by exact Hn. rewrite Hsum.
  pose proof (of_nat_pos _ Hn). field. lra.
Qed.

(** Rows that score 0 or nothing: the mean is 0. *)
Lemma mean_reduction_zeros (rows : list (list (option Q))) :
  Forall (fun row => row = [None] \/ exists d, row = [Some d] /\ (d == 0)%Q) rows ->
  (Dice.mean_reduction rows == 0)%Q.
Proof.
  intros Hall. unfold Dice.mean_reduction.
  assert (Hsum : (Dice.qsum (Dice.channel_mean <$> rows) == 0)%Q).
  { induction Hall as [|row rows Hrow _ IH]; [reflexivity|].
    cbn [fmap list_fmap Dice.qsum foldr].
    fold (Dice.qsum (Dice.channel_mean <$> rows)). rewrite IH.
    destruct Hrow as [->|(d & -> & Hd)].
    - rewrite channel_mean_nan. ring.
    - rewrite channel_mean_score. setoid_rewrite Hd. ring. }
  destruct (decide _); [|reflexivity]. rewrite Hsum. unfold Qdiv. ring.
Qed.

Lemma update_dice_metric_app d (output : Prediction * tensor Q) buffer rows :
  update_dice_metric d output [] = Some rows ->
  update_dice_metric d output buffer = Some (buffer ++ rows).
Proof.
  unfold update_dice_metric. intros H.
  apply bind_Some in H as (rows' & -> & H). injection H as <-. reflexivity.
Qed.

Lemma updates_from_buffer d outputs rowss buffer :
  Forall2 (fun output rows => update_dice_metric d output [] = Some rows) outputs rowss ->
  foldl (fun buffer output => buffer ≫= update_dice_metric d output)
        (Some buffer) outputs
  = Some (buffer ++ concat rowss).
Proof.
  intros H. revert buffer.
  induction H as [|output rows outputs rowss Hrows _ IH]; intros buffer.
  - cbn. rewrite app_nil_r. reflexivity.
  - cbn [foldl mbind option_bind concat].
    rewrite (update_dice_metric_app _ _ buffer _ Hrows), IH, app_assoc. reflexivity.
Qed.

Lemma dice_buffer_after_concat d outputs rowss :
  Forall2 (fun output rows => update_dice_metric d output [] = Some rows) outputs rowss ->
  dice_buffer_after d outputs = Some (concat rowss).
Proof. intros H. apply (updates_from_buffer d outputs rowss [] H). Qed.

(** The rows one evaluated pair adds to the buffer. *)
Lemma rows_of_pair d (p : tensor bool) (y : tensor Q) :
  single_channel p y ->
  exists (B : nat) (sp : list nat) rows,
    0 < B /\ shape p = B :: 1 :: sp
    /\ update_dice_metric d (Binary p, y) [] = Some rows
    /\ rows = (fun b => [ Dice.compute_channel sp
                            (fun i => data p (b :: 0 :: i))
                            (fun i => if positive y (b :: 0 :: i) then 1%Q else 0%Q) ])
              <$> seq 0 B.
Proof.
  intros (B & sp & Hp & Hy & HB & Hsp). exists B, sp. eexists.
  split; [exact HB|]. split; [exact Hp|]. split; [|reflexivity].
  unfold update_dice_metric. cbn [fst snd].
  rewrite (compute_dice_single p y B sp Hp Hy Hsp). reflexivity.
Qed.

Lemma Forall_exists_Forall2 {A B} (R : A -> B -> Prop) (l : list A) :
  Forall (fun x => exists y, R x y) l -> exists k, Forall2 R l k.
Proof.
  induction 1 as [|x l (y & Hy) _ (k & Hk)].
  - exists []. constructor.
  - exists (y :: k). constructor; assumption.
Qed.

Lemma elem_of_concat {A} (x : A) (ls : list (list A)) (l : list A) :
  l ∈ ls -> x ∈ l -> x ∈ concat ls.
Proof.
  intros Hl Hx. apply list_elem_of_In, in_concat. exists l.
  split; apply list_elem_of_In; assumption.
Qed.

Lemma pair_rows_matching d (p : tensor bool) (y : tensor Q) :
  single_channel p y -> matching p y ->
  exists rows,
    update_dice_metric d (Binary p, y) [] = Some rows
    /\ rows <> []
    /\ Forall (fun row => row = [None] \/ exists s, row = [Some s] /\ (s == 1)%Q) rows
    /\ (some_positive p -> Exists (fun row => exists s, row = [Some s]) rows).
Proof.
  intros Hsc Hm. destruct (rows_of_pair d p y Hsc) as (B & sp & rows & HB & Hp & Hup & ->).
  eexists. split; [exact Hup|].
  assert (Hrow : forall b, b < B ->
            let x_pred := fun i => data p (b :: 0 :: i) in
            let x := fun i => if positive y (b :: 0 :: i) then 1%Q else 0%Q in
            forall i, i ∈ indices sp -> x i = if x_pred i then 1%Q else 0%Q).
  { intros b Hb x_pred x i Hi. unfold x, x_pred.
    rewrite (Hm (b :: 0 :: i)); [reflexivity|].
    rewrite Hp. apply elem_of_item_voxel; assumption. }
  split; [|split].
  - destruct B; [lia|]. discriminate.
  - apply Forall_fmap, Forall_forall. intros b Hb. apply elem_of_seq in Hb.
    unfold compose. cbv beta.
    destruct (compute_channel_matching sp _ _ (Hrow b ltac:(lia)))
      as [[_ Hc]|[_ (s & Hc & Hs)]].
    + left. f_equal. exact Hc.
    + right. exists s. split; [f_equal; exact Hc|exact Hs].
  - intros (idx & Hidx & Hpos). rewrite Hp in Hidx.
    apply elem_of_indices_cons in Hidx as (b & idx' & -> & Hb & Hidx).
    apply elem_of_indices_cons in Hidx as (c & i & -> & Hc & Hi).
    assert (c = 0) as -> by lia.
    apply Exists_exists. eexists. split.
    + apply list_elem_of_fmap. exists b. split; [reflexivity|].
      apply elem_of_seq. lia.
    + cbv beta. destruct (compute_channel_matching sp _ _ (Hrow b Hb))
        as [[Hnone _]|[_ (s & Hch & _)]].
      * cbv beta in Hnone. rewrite (Hnone i Hi) in Hpos. discriminate.
      * exists s. f_equal. exact Hch.
Qed.

Lemma pair_rows_disjoint d (p : tensor bool) (y : tensor Q) :
  single_channel p y -> disjoint_masks p y ->
  exists rows,
    update_dice_metric d (Binary p, y) [] = Some rows
    /\ rows <> []
    /\ Forall (fun row => row = [None] \/ exists s, row = [Some s] /\ (s == 0)%Q) rows.
Proof.
  intros Hsc Hm. destruct (rows_of_pair d p y Hsc) as (B & sp & rows & HB & Hp & Hup & ->).
  eexists. split; [exact Hup|]. split.
  - destruct B; [lia|]. discriminate.
  - apply Forall_fmap, Forall_forall. intros b Hb. apply elem_of_seq in Hb.
    unfold compose. cbv beta.
    assert (Hx : forall i, i ∈ indices sp -> data p (b :: 0 :: i) = true ->
                           (if positive y (b :: 0 :: i) then 1%Q else 0%Q) = 0%Q).
    { intros i Hi Hpos. destruct (positive y (b :: 0 :: i)) eqn:E; [|reflexivity].
      exfalso. apply (Hm (b :: 0 :: i)); [|auto].
      rewrite Hp. apply elem_of_item_voxel; [lia|exact Hi]. }
    destruct (compute_channel_disjoint sp (fun i => data p (b :: 0 :: i))
                (fun i => if positive y (b :: 0 :: i) then 1%Q else 0%Q) Hx)
      as [Hc|(s & Hc & Hs)].
    + left. f_equal. exact Hc.
    + right. exists s. split; [f_equal; exact Hc|exact Hs].
Qed.

Lemma aggregate_of_pairs d (P : list (option Q) -> Prop)
    (pairs : list (tensor bool * tensor Q)) :
  pairs <> [] ->
  Forall (fun py => exists rows,
            update_dice_metric d (Binary py.1, py.2) [] = Some rows
            /\ rows <> [] /\ Forall P rows) pairs ->
  exists rowss,
    Forall2 (fun py rows => update_dice_metric d (Binary py.1, py.2) [] = Some rows
                            /\ rows <> [] /\ Forall P rows) pairs rowss
    /\ dice_buffer_after d (evaluated pairs) = Some (concat rowss)
    /\ Dice.aggregate (concat rowss) = Some (Dice.mean_reduction (concat rowss))
    /\ Forall P (concat rowss).
Proof.
  intros Hne Hall. apply Forall_exists_Forall2 in Hall as (rowss & H2).
  exists rowss. split; [exact H2|]. split; [|split].
  - apply dice_buffer_after_concat. unfold evaluated. apply Forall2_fmap_l.
    eapply Forall2_impl; [exact H2|]. intros py rows (Hup & _). exact Hup.
  - unfold Dice.aggregate. rewrite option_guard_True; [reflexivity|].
    destruct H2 as [|py rows ? ? (_ & Hrows & _) _]; [congruence|].
    destruct rows; [congruence|]. discriminate.
  - apply Forall_concat. eapply Forall2_Forall_r; [exact H2|].
    apply Forall_forall. intros py _ rows (_ & _ & HP). exact HP.
Qed.

(** C7, as the code has it.  When every evaluated pair has a prediction
    equal to its mask and at least one of them has a positive voxel, the
    aggregated mean Dice is 1; when every evaluated pair has a prediction
    disjoint from its mask, it is 0. *)
Theorem mean_dice_of_matching_and_disjoint_pairs
    (dice_of_labels : tensor Z -> tensor Q -> option (list (list (option Q))))
    (pairs : list (tensor bool * tensor Q)) :
  pairs <> [] ->
  Forall (fun py => single_channel py.1 py.2) pairs ->
  (Forall (fun py => matching py.1 py.2) pairs ->
   Exists (fun py => some_positive py.1) pairs ->
   exists buffer s,
     dice_buffer_after dice_of_labels (evaluated pairs) = Some buffer
     /\ Dice.aggregate buffer = Some s /\ (s == 1)%Q)
  /\ (Forall (fun py => disjoint_masks py.1 py.2) pairs ->
      exists buffer s,
        dice_buffer_after dice_of_labels (evaluated pairs) = Some buffer
        /\ Dice.aggregate buffer = Some s /\ (s == 0)%Q).
Proof.
  intros Hne Hsc. split.
  - intros Hm Hex.
    set (P := fun row : list (option Q) =>
                row = [None] \/ exists s, row = [Some s] /\ (s == 1)%Q).
    assert (Hrows : Forall (fun py => exists rows,
                      update_dice_metric dice_of_labels (Binary py.1, py.2) [] = Some rows
                      /\ rows <> [] /\ Forall P rows) pairs).
    { apply Forall_forall. intros [p y] Hin.
      rewrite Forall_forall in Hsc, Hm.
      destruct (pair_rows_matching dice_of_labels p y (Hsc _ Hin) (Hm _ Hin))
        as (rows & ? & ? & ? & _). eauto. }
    destruct (aggregate_of_pairs _ P pairs Hne Hrows) as (rowss & H2 & Hbuf & Hagg & HP).
    exists (concat rowss), (Dice.mean_reduction (concat rowss)).
    split; [exact Hbuf|]. split; [exact Hagg|].
    apply mean_reduction_ones; [exact HP|].
    apply Exists_exists in Hex as ([p y] & Hin & Hpos).
    apply list_elem_of_lookup in Hin as (k & Hk).
    destruct (Forall2_lookup_l _ _ _ _ _ H2 Hk) as (rows & Hrk & Hup & _ & _).
    rewrite Forall_forall in Hsc, Hm.
    assert (Hin : (p, y) ∈ pairs) by (apply list_elem_of_lookup; eauto).
    destruct (pair_rows_matching dice_of_labels p y (Hsc _ Hin) (Hm _ Hin))
      as (rows' & Hup' & _ & _ & Hscore).
    cbn [fst snd] in Hup. assert (rows' = rows) as -> by congruence.
    apply Exists_exists in Hscore as (row & Hrow & Hs); [|exact Hpos].
    apply Exists_exists. exists row. split; [|exact Hs].
    eapply elem_of_concat; [|exact Hrow]. apply list_elem_of_lookup. eauto.
  - intros Hm.
    set (P := fun row : list (option Q) =>
                row = [None] \/ exists s, row = [Some s] /\ (s == 0)%Q).
    assert (Hrows : Forall (fun py => exists rows,
                      update_dice_metric dice_of_labels (Binary py.1, py.2) [] = Some rows
                      /\ rows <> [] /\ Forall P rows) pairs).
    { apply Forall_forall. intros [p y] Hin.
      rewrite Forall_forall in Hsc, Hm.
      apply (pair_rows_disjoint dice_of_labels p y (Hsc _ Hin) (Hm _ Hin)). }
    destruct (aggregate_of_pairs _ P pairs Hne Hrows) as (rowss & H2 & Hbuf & Hagg & HP).
    exists (concat rowss), (Dice.mean_reduction (concat rowss)).
    split; [exact Hbuf|]. split; [exact Hagg|].
    apply mean_reduction_zeros. exact HP.
Qed.

Lemma two_voxels (i : index) :
  i ∈ indices [1; 1; 1; 1; 2] -> i = [0; 0; 0; 0; 0] \/ i = [0; 0; 0; 0; 1].
Proof.
  intros Hi. apply list_elem_of_In in Hi. cbn in Hi.
  destruct Hi as [<-|[<-|[]]]; auto.
Qed.

Lemma mean_dice_of_matching_and_disjoint_pairs_example :
  let sh := [1; 1; 1; 1; 2] in
  (exists buffer s,
      dice_buffer_after (fun _ _ => None)
        (evaluated [(voxel_prediction sh [0; 0; 0; 0; 1], voxel_mask sh [0; 0; 0; 0; 1])])
      = Some buffer
      /\ Dice.aggregate buffer = Some s /\ (s == 1)%Q)
  /\ (exists buffer s,
        dice_buffer_after (fun _ _ => None)
          (evaluated [(voxel_prediction sh [0; 0; 0; 0; 1], voxel_mask sh [0; 0; 0; 0; 0])])
        = Some buffer
        /\ Dice.aggregate buffer = Some s /\ (s == 0)%Q).
Proof.
  intros sh. split.
  - apply (mean_dice_of_matching_and_disjoint_pairs (fun _ _ => None)
             [(voxel_prediction sh [0; 0; 0; 0; 1], voxel_mask sh [0; 0; 0; 0; 1])]).
    + discriminate.
    + repeat constructor. exists 1, [1; 1; 2]. repeat split; (reflexivity || lia || discriminate).
    + repeat constructor. intros i Hi.
      destruct (two_voxels i Hi) as [->| ->]; reflexivity.
    + constructor. exists [0; 0; 0; 0; 1]. split; [|reflexivity].
      apply list_elem_of_In. cbn. auto.
  - apply (mean_dice_of_matching_and_disjoint_pairs (fun _ _ => None)
             [(voxel_prediction sh [0; 0; 0; 0; 1], voxel_mask sh [0; 0; 0; 0; 0])]).
    + discriminate.
    + repeat constructor. exists 1, [1; 1; 2]. repeat split; (reflexivity || lia || discriminate).
    + repeat constructor. intros i Hi [H1 H2].
      destruct (two_voxels i Hi) as [->| ->]; discriminate.
Defined.

(** C7, as the specification states it, fails.  An empty prediction equals
    an empty mask, yet the aggregated mean Dice of that pair is 0, not 1:
    the pair has no score, and the mean over no score is 0. *)
Lemma mean_dice_of_empty_match_is_zero :
  let p := empty_prediction [1; 1; 1; 1; 2] in
  let y := empty_mask [1; 1; 1; 1; 2] in
  single_channel p y
  /\ matching p y
  /\ dice_buffer_after (fun _ _ => None) (evaluated [(p, y)]) = Some [[None]]
  /\ Dice.aggregate [[None]] = Some 0%Q
  /\ ~ (0 == 1)%Q.
Proof.
  intros p y. split; [|split; [|split; [|split]]].
  - exists 1, [1; 1; 2]. repeat split; (reflexivity || lia || discriminate).
  - intros i _. reflexivity.
  - vm_compute. reflexivity.
  - vm_compute. reflexivity.
  - discriminate.
Qed.

(** ** The worked example *)

Lemma default_of_Some {A} (o : option A) (d : A) :
  bool_decide (is_Some o) = true -> o = Some (default d o).
Proof.
  destruct o; [reflexivity|]. intros H. apply bool_decide_eq_true in H.
  destruct H as [? H]. discriminate.
Qed.

Lemma example_loader_batches : example_loader = Some example_batches.
Proof. apply default_of_Some. vm_compute. reflexivity. Qed.

Lemma example_loop :
  iterations example_sigmoid example_softmax unit example_net example_train
    (fun _ _ => None) nat counting_metric counting_metric
    example_start example_batches
  = Some example_final.
Proof. apply default_of_Some. vm_compute. reflexivity. Qed.

Lemma example_run_returns : bool_decide (is_Some example_run) = true.
Proof. vm_compute. reflexivity. Qed.

Lemma one_record_per_pair_in_order_example :
  length (store_predictions example_final) = 2.
Proof.
  apply (one_record_per_pair_in_order example_sigmoid example_softmax unit
           example_net example_train (fun _ _ => None) nat counting_metric
           counting_metric _ _ _ _ _ _ _ example_start example_final example_batches
           example_loader_batches eq_refl example_loop).
Defined.


Lemma four_gifs_one_frame_per_slice_example :
  exists res eff,
    example_run = Some (res, eff)
    /\ directories_after eff = {[ "/work/saved_gifs" ]} ∪ ∅
    /\ length (saved eff) = 4.
Proof.
  pose proof example_run_returns as Hs.
  destruct example_run as [[res eff]|] eqn:E; [|discriminate].
  exists res, eff. split; [reflexivity|].
  destruct (four_gifs_one_frame_per_slice _ _ _ _ _ _ _ _ _ _ _ _ _ E)
    as (Hdir & weights & batches & st & metrics & printed & r0 & r1
        & a0 & a1 & a2 & a3 & _ & _ & Hsaved & _).
  split; [exact Hdir|]. rewrite Hsaved. reflexivity.
Defined.

Lemma multiclass_branch_unreachable_example :
  let x := mkTensor [1; 1; 2; 2; 3] (fun _ => 0%Q) in
  shape (forward example_net example_train (mkModule the_model () true) x).1 !! 1 = Some 1
  /\ (exists p out m',
        evaluation_step example_sigmoid example_softmax unit example_net example_train
          (mkModule the_model () true) (x, x) = Some (out, m')
        /\ out.1 = Binary p)
  /\ forall r i, r ∈ store_predictions example_final ->
                 data r.1 i = 0%Z \/ data r.1 i = 1%Z.
Proof.
  intros x.
  destruct (multiclass_branch_unreachable example_sigmoid example_softmax unit
              example_net example_train (fun _ _ => None) nat counting_metric
              counting_metric) as (H1 & H2 & H3).
  split; [apply H1; discriminate|]. split.
  - destruct (H2 (mkModule the_model () true) _ (x, x) _ eq_refl eq_refl) as (p & Hp & _).
    exists p. eexists. eexists. split; [reflexivity|exact Hp].
  - apply (H3 example_start example_final example_batches eq_refl).
    + intros r i Hr. inversion Hr.
    + exact example_loop.
Defined.

(** * Further properties *)

(** ** The preprocessing chains *)

(** X1. The rescaled intensities always lie in [0, 1], and rescaling keeps
    the order of intensities. *)
Theorem rescale_bounded_monotone :
  (forall v, 0 <= rescale v <= 1)%Q
  /\ (forall v w, v <= w -> rescale v <= rescale w)%Q.
Proof.
  split.
  - intros v. rewrite rescale_clamp. unfold clamp. split.
    + apply Q.min_glb; [apply Q.le_max_r|discriminate].
    + apply Q.le_min_r.
  - intros v w Hvw. rewrite !rescale_clamp. unfold clamp.
    apply Q.min_le_compat_r, Q.max_le_compat_r.
    apply Qmult_le_compat_r; [lra|]. discriminate.
Qed.

Lemma rescale_bounded_monotone_example : (rescale 0 <= rescale 300)%Q.
Proof.
  destruct rescale_bounded_monotone as [_ H]. apply H. discriminate.
Defined.

Lemma signed_permutation_cases (o : ornt) :
  signed_permutation o ->
  exists a b c fa fb fc,
    o = [(a, fa); (b, fb); (c, fc)]
    /\ ([a; b; c] = [0; 1; 2] \/ [a; b; c] = [1; 0; 2] \/ [a; b; c] = [1; 2; 0]
        \/ [a; b; c] = [0; 2; 1] \/ [a; b; c] = [2; 0; 1] \/ [a; b; c] = [2; 1; 0]).
Proof.
  unfold signed_permutation.
  change (permutations [0; 1; 2])
    with [[0; 1; 2]; [1; 0; 2]; [1; 2; 0]; [0; 2; 1]; [2; 0; 1]; [2; 1; 0]].
  intros H.
  assert (Hlen : length (o.*1) = 3).
  { repeat (apply elem_of_cons in H as [->|H]); try reflexivity. inversion H. }
  rewrite length_fmap in Hlen.
  destruct o as [|[a fa] [|[b fb] [|[c fc] [|? ?]]]]; try discriminate.
  exists a, b, c, fa, fb, fc. split; [reflexivity|].
  cbn in H. repeat (apply elem_of_cons in H as [H|H]); auto 10. inversion H.
Qed.

Lemma ornt_transform_signed_permutation (o : ornt) :
  signed_permutation o -> exists t, Monai.ornt_transform o ras = Some t /\ t = o.
Proof.
  intros H. apply signed_permutation_cases in H
    as (a & b & c & fa & fb & fc & -> & H).
  exists [(a, fa); (b, fb); (c, fc)]. split; [|reflexivity].
  destruct H as [H|[H|[H|[H|[H|H]]]]]; injection H as -> -> ->;
    destruct fa, fb, fc; reflexivity.
Qed.

(** X2. Among files with a proper orientation, a chain fails on the
    absent ones and on no other: neither an undersized nor an empty axis
    makes the rescaling, the reorientation or the crop fail.  The result
    carries the orientation RAS. *)
Theorem chains_fail_only_on_absent_files
    (files : gmap string Nifti) (R : rng) (p : string) :
  (forall f, files !! p = Some f -> signed_permutation (nii_ornt f)) ->
  (image_transforms files R p = None <-> files !! p = None)
  /\ (seg_transforms files R p = None <-> files !! p = None)
  /\ (forall out, image_transforms files R p = Some out -> affine_ornt out = ras)
  /\ (forall out, seg_transforms files R p = Some out -> affine_ornt out = ras).
Proof.
  intros Hok. rewrite image_transforms_eq, seg_transforms_eq.
  destruct (files !! p) as [f|] eqn:Hf; cbn [mbind option_bind].
  - destruct (ornt_transform_signed_permutation _ (Hok f eq_refl)) as (t & -> & _).
    cbn [mbind option_bind].
    repeat split; try discriminate; intros out [= <-]; reflexivity.
  - repeat split; try reflexivity; discriminate.
Qed.

Lemma chains_fail_only_on_absent_files_example :
  (image_transforms example_files [] "nowhere.nii" = None)
  /\ (seg_transforms example_files [] "short.nii" <> None).
Proof.
  split.
  - apply (chains_fail_only_on_absent_files example_files [] "nowhere.nii").
    + intros f Hf. vm_compute in Hf. discriminate.
    + reflexivity.
  - intros H.
    apply (chains_fail_only_on_absent_files example_files [] "short.nii") in H.
    + vm_compute in H. discriminate.
    + intros f Hf. vm_compute in Hf. injection Hf as <-.
      vm_compute. apply list_elem_of_here.
Defined.

Lemma crop_shape (c X Y Z : nat) (dat : index -> Q) :
  shape (Monai.crop (crop_slices [X; Y; Z]) (mkTensor [c; X; Y; Z] dat))
  = [c; X `min` 512; Y `min` 512; Z `min` 160].
Proof.
  change (c :: [ Monai.sliced_extent X (X / 2 - 512 / 2, X / 2 - 512 / 2 + 512);
                 Monai.sliced_extent Y (Y / 2 - 512 / 2, Y / 2 - 512 / 2 + 512);
                 Monai.sliced_extent Z (Z / 2 - 160 / 2, Z / 2 - 160 / 2 + 160) ]
          = [c; X `min` 512; Y `min` 512; Z `min` 160]).
  rewrite !centered_extent by reflexivity. reflexivity.
Qed.

Lemma chain_shape (f : Nifti) (pre : Q -> Q) :
  signed_permutation (nii_ornt f) ->
  exists a b c,
    Monai.reoriented_shape (nii_ornt f) (nii_shape f) = [a; b; c]
    /\ shape (Monai.crop (crop_slices (Monai.reoriented_shape (nii_ornt f) (nii_shape f)))
                (Monai.apply_orientation (nii_ornt f)
                   (tmap pre (unsqueeze0 (mkTensor (nii_shape f) (nii_data f))))))
       = [1; a `min` 512; b `min` 512; c `min` 160].
Proof.
  intros _. destruct f as [[[x y] z] o dat]. cbn [nii_ornt nii_shape nii_dims nii_data].
  eexists _, _, _. split; [reflexivity|].
  apply (crop_shape 1 _ _ _
           (data (Monai.apply_orientation o (tmap pre (unsqueeze0 (mkTensor [x; y; z] dat)))))).
Qed.

(** X3. A transformed image or segmentation has one channel and, on the
    axes left-right, posterior-anterior and inferior-superior, the extent
    of the file or the extent 512, 512, 160 of the crop, whichever is
    smaller: never more than 512 x 512 x 160 voxels a channel. *)
Theorem transformed_shape_is_bounded
    (files : gmap string Nifti) (R : rng) (p : string) (f : Nifti) :
  files !! p = Some f ->
  signed_permutation (nii_ornt f) ->
  exists a b c out_i out_s,
    Monai.reoriented_shape (nii_ornt f) (nii_shape f) = [a; b; c]
    /\ image_transforms files R p = Some out_i
    /\ seg_transforms files R p = Some out_s
    /\ shape (arr out_i) = [1; a `min` 512; b `min` 512; c `min` 160]
    /\ shape (arr out_s) = [1; a `min` 512; b `min` 512; c `min` 160]
    /\ a `min` 512 <= 512 /\ b `min` 512 <= 512 /\ c `min` 160 <= 160.
Proof.
  intros Hf Ho. rewrite image_transforms_eq, seg_transforms_eq, Hf.
  cbn [mbind option_bind].
  destruct (ornt_transform_signed_permutation _ Ho) as (t & -> & ->).
  cbn [mbind option_bind].
  destruct (chain_shape f rescale Ho) as (a & b & c & Hs & Hi).
  destruct (chain_shape f (fun v => v) Ho) as (a' & b' & c' & Hs' & Hi').
  rewrite Hs in Hs'. injection Hs' as <- <- <-.
  exists a, b, c. eexists. eexists.
  split; [exact Hs|]. split; [reflexivity|]. split; [reflexivity|].
  cbn [arr]. split; [exact Hi|]. split; [exact Hi'|]. lia.
Qed.

Lemma transformed_shape_is_bounded_example :
  exists out, seg_transforms example_files [] "segmentation.nii" = Some out
              /\ shape (arr out) = [1; 4; 4; 6].
Proof.
  destruct (transformed_shape_is_bounded example_files [] "segmentation.nii" _ eq_refl)
    as (a & b & c & oi & os & Hs & _ & Hseg & _ & Hsh & _).
  { vm_compute. apply list_elem_of_here. }
  exists os. split; [exact Hseg|]. rewrite Hsh.
  vm_compute in Hs. injection Hs as <- <- <-. reflexivity.
Defined.

Lemma in_bounds_4 (a b c d : nat) (i : index) :
  in_bounds [a; b; c; d] i ->
  exists i0 i1 i2 i3, i = [i0; i1; i2; i3] /\ i0 < a /\ i1 < b /\ i2 < c /\ i3 < d.
Proof.
  unfold in_bounds. intros H.
  inversion H as [|i0 ? l0 ? H0 H']; subst.
  inversion H' as [|i1 ? l1 ? H1 H'']; subst.
  inversion H'' as [|i2 ? l2 ? H2 H''']; subst.
  inversion H''' as [|i3 ? l3 ? H3 H4]; subst.
  inversion H4; subst.
  exists i0, i1, i2, i3. auto.
Qed.

Lemma read_at_in_bounds (f : bool) (d h i : nat) :
  i < d `min` (2 * h) -> read_at f d h i < d.
Proof.
  intros Hi. unfold read_at.
  pose proof (Nat.div_mod_eq d 2). pose proof (Nat.mod_upper_bound d 2).
  destruct f; lia.
Qed.

Lemma read_at_inj (f : bool) (d h i j : nat) :
  i < d `min` (2 * h) -> j < d `min` (2 * h) ->
  read_at f d h i = read_at f d h j -> i = j.
Proof.
  intros Hi Hj. unfold read_at.
  pose proof (Nat.div_mod_eq d 2). pose proof (Nat.mod_upper_bound d 2).
  destruct f; lia.
Qed.

(** Where index [i0; i1; i2; i3] of a transformed tensor comes from: array
    axis [n] of the file, which runs along world axis [k], is read for
    position [i_k] of the crop along that world axis. *)
Lemma voxel_source_formula (x y z a b c : nat) (fa fb fc : bool) (i0 i1 i2 i3 : nat) :
  signed_permutation [(a, fa); (b, fb); (c, fc)] ->
  voxel_source [x; y; z] [(a, fa); (b, fb); (c, fc)] [i0; i1; i2; i3]
  = [ read_at fa x (nth a [256; 256; 80] 0) (nth a [i1; i2; i3] 0);
      read_at fb y (nth b [256; 256; 80] 0) (nth b [i1; i2; i3] 0);
      read_at fc z (nth c [256; 256; 80] 0) (nth c [i1; i2; i3] 0) ].
Proof.
  intros Ho.
  destruct (ornt_transform_signed_permutation _ Ho) as (t & Ht & ->).
  unfold voxel_source. rewrite Ht.
  apply signed_permutation_cases in Ho
    as (a' & b' & c' & fa' & fb' & fc' & [= <- <- <- <- <- <-] & H).
  destruct H as [H|[H|[H|[H|[H|H]]]]]; injection H as -> -> ->; reflexivity.
Qed.

Lemma list3_inj {A} (a b c a' b' c' : A) :
  [a; b; c] = [a'; b'; c'] -> a = a' /\ b = b' /\ c = c'.
Proof. intros [= -> -> ->]. auto. Qed.

Lemma voxel_source_in_bounds (x y z a b c : nat) (fa fb fc : bool) (r0 r1 r2 : nat) :
  signed_permutation [(a, fa); (b, fb); (c, fc)] ->
  Monai.reoriented_shape [(a, fa); (b, fb); (c, fc)] [x; y; z] = [r0; r1; r2] ->
  (forall i, in_bounds [1; r0 `min` 512; r1 `min` 512; r2 `min` 160] i ->
             in_bounds [x; y; z] (voxel_source [x; y; z] [(a, fa); (b, fb); (c, fc)] i))
  /\ (forall i i',
        in_bounds [1; r0 `min` 512; r1 `min` 512; r2 `min` 160] i ->
        in_bounds [1; r0 `min` 512; r1 `min` 512; r2 `min` 160] i' ->
        voxel_source [x; y; z] [(a, fa); (b, fb); (c, fc)] i
        = voxel_source [x; y; z] [(a, fa); (b, fb); (c, fc)] i' ->
        i = i').
Proof.
  intros Ho Hs. split.
  - intros i Hi.
    apply in_bounds_4 in Hi as (i0 & i1 & i2 & i3 & -> & H0 & H1 & H2 & H3).
    rewrite (voxel_source_formula x y z a b c fa fb fc i0 i1 i2 i3 Ho).
    apply signed_permutation_cases in Ho
      as (a' & b' & c' & fa' & fb' & fc' & [= <- <- <- <- <- <-] & H).
    destruct H as [H|[H|[H|[H|[H|H]]]]]; injection H as -> -> ->;
      vm_compute in Hs; injection Hs as <- <- <-;
      cbn [nth]; unfold in_bounds.
    all: repeat (constructor;
                 [apply read_at_in_bounds; first [exact H1|exact H2|exact H3]|]).
    all: constructor.
  - intros i i' Hi Hi'.
    apply in_bounds_4 in Hi as (i0 & i1 & i2 & i3 & -> & H0 & H1 & H2 & H3).
    apply in_bounds_4 in Hi' as (j0 & j1 & j2 & j3 & -> & G0 & G1 & G2 & G3).
    rewrite (voxel_source_formula x y z a b c fa fb fc i0 i1 i2 i3 Ho).
    rewrite (voxel_source_formula x y z a b c fa fb fc j0 j1 j2 j3 Ho).
    assert (i0 = j0) as -> by lia.
    apply signed_permutation_cases in Ho
      as (a' & b' & c' & fa' & fb' & fc' & [= <- <- <- <- <- <-] & H).
    destruct H as [H|[H|[H|[H|[H|H]]]]]; injection H as -> -> ->;
      vm_compute in Hs; injection Hs as <- <- <-;
      cbn [nth]; intros E; apply list3_inj in E as (E1 & E2 & E3).
    all: apply read_at_inj in E1;
      [|first [exact H1|exact H2|exact H3|exact G1|exact G2|exact G3]..].
    all: apply read_at_inj in E2;
      [|first [exact H1|exact H2|exact H3|exact G1|exact G2|exact G3]..].
    all: apply read_at_inj in E3;
      [|first [exact H1|exact H2|exact H3|exact G1|exact G2|exact G3]..].
    all: subst; reflexivity.
Qed.

Lemma chain_out_shape (files : gmap string Nifti) (R : rng) (p : string)
    (f : Nifti) (out : MetaTensor) :
  files !! p = Some f ->
  signed_permutation (nii_ornt f) ->
  image_transforms files R p = Some out \/ seg_transforms files R p = Some out ->
  exists a b c,
    Monai.reoriented_shape (nii_ornt f) (nii_shape f) = [a; b; c]
    /\ shape (arr out) = [1; a `min` 512; b `min` 512; c `min` 160].
Proof.
  intros Hf Ho Hout. rewrite image_transforms_eq, seg_transforms_eq, Hf in Hout.
  cbn [mbind option_bind] in Hout.
  destruct (ornt_transform_signed_permutation _ Ho) as (t & Ht & ->).
  rewrite Ht in Hout. cbn [mbind option_bind] in Hout.
  destruct Hout as [[= <-]|[= <-]]; cbn [arr].
  - apply (chain_shape f rescale Ho).
  - apply (chain_shape f (fun v => v) Ho).
Qed.

(** X4. Every valid index of a transformed tensor is read from a valid
    position of the file, and two different indices from two different
    positions: the chains never read outside the volume and never show a
    voxel twice. *)
Theorem transformed_voxels_lie_in_the_file
    (files : gmap string Nifti) (R : rng) (p : string) (f : Nifti) (out : MetaTensor) :
  files !! p = Some f ->
  signed_permutation (nii_ornt f) ->
  image_transforms files R p = Some out \/ seg_transforms files R p = Some out ->
  let src := voxel_source (nii_shape f) (nii_ornt f) in
  (forall i, in_bounds (shape (arr out)) i -> in_bounds (nii_shape f) (src i))
  /\ (forall i i', in_bounds (shape (arr out)) i -> in_bounds (shape (arr out)) i' ->
                   src i = src i' -> i = i').
Proof.
  intros Hf Ho Hout src.
  destruct (chain_out_shape files R p f out Hf Ho Hout) as (r0 & r1 & r2 & Hs & ->).
  subst src. destruct f as [[[x y] z] o dat].
  cbn [nii_ornt nii_shape nii_dims] in *.
  pose proof Ho as Hc. apply signed_permutation_cases in Hc
    as (a & b & c & fa & fb & fc & -> & _).
  apply (voxel_source_in_bounds x y z a b c fa fb fc r0 r1 r2 Ho Hs).
Qed.

Lemma transformed_voxels_lie_in_the_file_example :
  exists out,
    seg_transforms example_files [] "long.nii" = Some out
    /\ in_bounds [512; 512; 200]
         (voxel_source [512; 512; 200] ras [0; 511; 0; 159]).
Proof.
  eexists. split; [reflexivity|].
  refine (proj1 (transformed_voxels_lie_in_the_file example_files [] "long.nii"
                   (coordinate_volume (512, 512, 200) ras) _ eq_refl _
                   (or_intror eq_refl)) [0; 511; 0; 159] _).
  - vm_compute. apply list_elem_of_here.
  - unfold in_bounds. repeat (constructor; [vm_compute; lia|]). constructor.
Defined.

(** ** The evaluation loop, in general *)

Lemma mapM_all_Some {A B} (f : A -> option B) (g : A -> B) (l : list A) :
  (forall x, x ∈ l -> f x = Some (g x)) -> mapM f l = Some (g <$> l).
Proof.
  intros H. apply mapM_Some_2, Forall2_fmap_r, Forall_Forall2_diag, Forall_forall.
  exact H.
Qed.

(** X5. [save_segmentation_masks] succeeds exactly when the ground truth
    has an item for every item of the prediction (it indexes
    [ground_truth[idx]]); it then appends one record per item of the
    prediction, in order, and leaves the records already stored in place. *)
Theorem save_segmentation_masks_appends
    (p : Prediction) (gt : tensor Q) (store : list (tensor Z * tensor Q)) :
  let B := default 0 (head (prediction_shape p)) in
  let G := default 0 (head (shape gt)) in
  (B <= G ->
   save_segmentation_masks (p, gt) store
   = Some (store ++ ((fun idx => (times_one (prediction_select0 idx p), select0 idx gt))
                       <$> seq 0 B)))
  /\ (G < B -> save_segmentation_masks (p, gt) store = None).
Proof.
  intros B G. unfold save_segmentation_masks. fold B G. split.
  - intros HBG.
    rewrite (mapM_all_Some _
               (fun idx => (times_one (prediction_select0 idx p), select0 idx gt))).
    + reflexivity.
    + intros idx Hidx. apply elem_of_seq in Hidx.
      rewrite option_guard_True by lia. reflexivity.
  - intros HGB.
    rewrite (mapM_None_2 _ (seq 0 B)); [reflexivity|].
    apply Exists_exists. exists G. split.
    + apply elem_of_seq. lia.
    + rewrite option_guard_False by lia. reflexivity.
Qed.

Lemma save_segmentation_masks_appends_example :
  let p := Binary (voxel_prediction [2; 1; 1; 1; 2] [0; 0; 0; 0; 1]) in
  (exists r0 r1,
      save_segmentation_masks (p, empty_mask [2; 1; 1; 1; 2]) [] = Some [r0; r1])
  /\ save_segmentation_masks (p, empty_mask [1; 1; 1; 1; 2]) [] = None.
Proof.
  intros p. split.
  - eexists. eexists.
    apply (proj1 (save_segmentation_masks_appends p (empty_mask [2; 1; 1; 1; 2]) [])).
    cbn. lia.
  - apply (proj2 (save_segmentation_masks_appends p (empty_mask [1; 1; 1; 1; 2]) [])).
    cbn. lia.
Defined.

Lemma compute_dice_rows (p : tensor bool) (y : tensor Q) rows :
  Dice.compute_dice p y = Some rows ->
  length rows = default 0 (head (shape p)).
Proof.
  unfold Dice.compute_dice. intros H.
  apply bind_Some in H as (_ & _ & H). apply bind_Some in H as (_ & _ & H).
  injection H as <-. rewrite length_fmap, length_seq.
  destruct (shape p); reflexivity.
Qed.

Section LoopProperties.

Context (sigmoid : Q -> Q) (softmax : list Q -> list Q) (state_dict : Type)
        (state_dict_fits : UNet -> state_dict -> bool)
        (unet_eval : UNet -> state_dict -> tensor Q -> index -> Q)
        (unet_train : UNet -> state_dict -> tensor Q -> (index -> Q) * state_dict)
        (dice_of_labels : tensor Z -> tensor Q -> option (list (list (option Q))))
        (metric_value : Type)
        (Recall Precision : bool -> IgniteMetric metric_value).

Local Abbreviation fwd := (forward unet_eval unet_train).
Local Abbreviation step :=
  (evaluation_step sigmoid softmax state_dict unet_eval unet_train).
Local Abbreviation iter :=
  (iteration sigmoid softmax state_dict unet_eval unet_train dice_of_labels
             metric_value Recall Precision).
Local Abbreviation iters :=
  (iterations sigmoid softmax state_dict unet_eval unet_train dice_of_labels
              metric_value Recall Precision).
Local Abbreviation run :=
  (evaluator_run sigmoid softmax state_dict unet_eval unet_train dice_of_labels
                 metric_value Recall Precision).
Local Abbreviation script :=
  (generate_output sigmoid softmax state_dict state_dict_fits unet_eval unet_train
                   dice_of_labels metric_value Recall Precision).
Local Abbreviation state := (EvalState state_dict metric_value Recall Precision).

(** X6. The loop never touches the weights or the topology of the model,
    whatever mode the model was in: after at least one batch the model is
    in evaluation mode with the parameters it had, and over no batch at
    all nothing changes. *)
Theorem loop_keeps_the_weights (st st' : state) (batches : list (tensor Q * tensor Q)) :
  iters st batches = Some st' ->
  net (model st') = net (model st)
  /\ params (model st') = params (model st)
  /\ (batches <> [] -> training (model st') = false)
  /\ (batches = [] -> st' = st).
Proof.
  revert st. induction batches as [|batch rest IH]; intros st H.
  - injection H as <-. repeat split; congruence.
  - cbn [iterations] in H. apply bind_Some in H as (st1 & H1 & H).
    apply (iteration_inv sigmoid softmax state_dict unet_eval unet_train
             dice_of_labels metric_value Recall Precision) in H1
      as (p & _ & Hm & _).
    destruct (IH st1 H) as (Hn & Hp & Ht & He). rewrite Hm in Hn, Hp.
    split; [exact Hn|]. split; [exact Hp|]. split; [|discriminate].
    intros _. destruct rest as [|b rest'].
    + rewrite (He eq_refl), Hm. reflexivity.
    + apply Ht. discriminate.
Qed.

(** X7. The loop only appends: what was stored and what was scored
    before is still there, in place.  It stores one record per item of
    every batch, and with the script's network it scores one Dice row per
    record. *)
Theorem loop_only_appends (st st' : state) (batches : list (tensor Q * tensor Q)) :
  iters st batches = Some st' ->
  let items := sum_list ((fun batch => default 0 (head (shape batch.1))) <$> batches) in
  store_predictions st `prefix_of` store_predictions st'
  /\ dice_buffer st `prefix_of` dice_buffer st'
  /\ length (store_predictions st') = length (store_predictions st) + items
  /\ (net (model st) = the_model ->
      length (dice_buffer st') = length (dice_buffer st) + items).
Proof.
  revert st. induction batches as [|batch rest IH]; intros st H items.
  - injection H as <-. subst items. cbn. repeat split; (reflexivity || lia).
  - cbn [iterations] in H. apply bind_Some in H as (st1 & H1 & H).
    apply (iteration_inv sigmoid softmax state_dict unet_eval unet_train
             dice_of_labels metric_value Recall Precision) in H1
      as (p & Hstep & Hm & Hdice & Hsave).
    destruct (IH st1 H) as (Ps & Pd & Ls & Ld). clear IH.
    apply save_segmentation_masks_records in Hsave as (records & Hst & Hlen & _).
    pose proof (step_batch_extent sigmoid softmax state_dict unet_eval unet_train
                  _ _ _ _ Hstep) as He. cbn [fst] in He. rewrite He in Hlen.
    unfold update_dice_metric in Hdice.
    apply bind_Some in Hdice as (rows & Hrows & Hbuf). injection Hbuf as Hbuf.
    subst items. cbn [fmap list_fmap sum_list sum_list_with].
    split; [|split; [|split]].
    + etrans; [|exact Ps]. rewrite Hst. apply prefix_app_r. reflexivity.
    + etrans; [|exact Pd]. rewrite <- Hbuf. apply prefix_app_r. reflexivity.
    + rewrite Ls, Hst, length_app, Hlen.
      change (sum_list_with id ((fun batch : tensor Q * tensor Q =>
                                   default 0 (head (shape batch.1))) <$> rest))
        with (sum_list ((fun batch : tensor Q * tensor Q =>
                           default 0 (head (shape batch.1))) <$> rest)).
      unfold id. lia.
    + intros Hnet.
      destruct (step_binary sigmoid softmax state_dict unet_eval unet_train
                  _ _ _ _ Hnet Hstep) as (_ & b & Hb & _ & _).
      cbn [fst] in Hb, Hrows. subst p. cbn [prediction_shape] in He.
      apply compute_dice_rows in Hrows. rewrite He in Hrows.
      rewrite Ld by (rewrite Hm; exact Hnet). rewrite <- Hbuf, length_app, Hrows.
      change (sum_list_with id ((fun batch : tensor Q * tensor Q =>
                                   default 0 (head (shape batch.1))) <$> rest))
        with (sum_list ((fun batch : tensor Q * tensor Q =>
                           default 0 (head (shape batch.1))) <$> rest)).
      unfold id. lia.
Qed.

End LoopProperties.

Lemma example_batches_two : length example_batches = 2.
Proof. vm_compute. reflexivity. Qed.

Lemma loop_keeps_the_weights_example :
  net (model example_final) = the_model
  /\ params (model example_final) = ()
  /\ training (model example_final) = false.
Proof.
  destruct (loop_keeps_the_weights example_sigmoid example_softmax unit
              example_net example_train (fun _ _ => None) nat counting_metric
              counting_metric example_start example_final example_batches
              example_loop) as (Hn & Hp & Ht & _).
  split; [exact Hn|]. split; [exact Hp|]. apply Ht.
  intros E. pose proof example_batches_two as H. rewrite E in H. discriminate.
Defined.

Lemma loop_only_appends_example :
  length (store_predictions example_final) = 2
  /\ length (dice_buffer example_final) = 2.
Proof.
  destruct (loop_only_appends example_sigmoid example_softmax unit
              example_net example_train (fun _ _ => None) nat counting_metric
              counting_metric example_start example_final example_batches
              example_loop) as (_ & _ & Hs & Hd).
  assert (Hitems : sum_list ((fun batch : tensor Q * tensor Q =>
                                default 0 (head (shape batch.1))) <$> example_batches) = 2)
    by (vm_compute; reflexivity).
  rewrite Hitems in Hs, Hd. split; [exact Hs|]. apply Hd. reflexivity.
Defined.

(** ** The range of the Dice score *)

Lemma of_nat_le (n m : nat) : n <= m -> (Dice.of_nat n <= Dice.of_nat m)%Q.
Proof. intros H. unfold Dice.of_nat. rewrite <- Zle_Qle. lia. Qed.

Lemma of_nat_plus (n m : nat) : (Dice.of_nat (n + m) == Dice.of_nat n + Dice.of_nat m)%Q.
Proof. unfold Dice.of_nat. rewrite Nat2Z.inj_add, inject_Z_plus. reflexivity. Qed.

Lemma filter_filter_length {A} (P Q : A -> Prop) `{!forall a, Decision (P a)}
    `{!forall a, Decision (Q a)} (l : list A) :
  length (filter P (filter Q l)) <= length (filter P l).
Proof.
  induction l as [|a l IH]; [reflexivity|].
  rewrite !filter_cons. destruct (decide (Q a)), (decide (P a)); 
    rewrite ?filter_cons; try (rewrite decide_True by assumption);
    try (rewrite decide_False by assumption); cbn [length]; lia.
Qed.

(** The score of a channel whose mask is an indicator lies in [0, 1]. *)
Lemma compute_channel_range (sp : list nat) (x_pred g : index -> bool) :
  Dice.compute_channel sp x_pred (fun i => if g i then 1%Q else 0%Q) = None
  \/ exists d, Dice.compute_channel sp x_pred (fun i => if g i then 1%Q else 0%Q) = Some d
               /\ (0 <= d <= 1)%Q.
Proof.
  unfold Dice.compute_channel.
  set (x := fun i => if g i then 1%Q else 0%Q).
  set (sel := filter (fun i => x_pred i) (indices sp)).
  assert (Hyo : (Dice.qsum (x <$> indices sp)
                 == Dice.of_nat (length (filter (fun i => g i) (indices sp))))%Q)
    by (apply qsum_indicator; reflexivity).
  assert (Hin : (Dice.qsum (x <$> sel)
                 == Dice.of_nat (length (filter (fun i => g i) sel)))%Q)
    by (apply qsum_indicator; reflexivity).
  destruct (Qgtb (Dice.qsum (x <$> indices sp)) 0) eqn:Hg; [right|left; reflexivity].
  eexists. split; [reflexivity|].
  apply Qgtb_lt in Hg. rewrite Hyo in Hg.
  set (ny := length (filter (fun i => g i) (indices sp))) in *.
  set (ni := length (filter (fun i => g i) sel)) in *.
  assert (Hiy : ni <= ny) by (subst ni ny sel; apply filter_filter_length).
  assert (Hip : ni <= length sel) by (subst ni; apply length_filter).
  rewrite Hin, Hyo.
  pose proof (of_nat_le 0 ni ltac:(lia)) as H0. change (Dice.of_nat 0) with 0%Q in H0.
  pose proof (of_nat_le _ _ Hiy) as H1. pose proof (of_nat_le _ _ Hip) as H2.
  pose proof (of_nat_le 0 (length sel) ltac:(lia)) as H3.
  change (Dice.of_nat 0) with 0%Q in H3.
  split.
  - apply Qle_shift_div_l; lra.
  - apply Qle_shift_div_r; lra.
Qed.

Lemma compute_dice_range (p : tensor bool) (y : tensor Q) rows :
  shape p !! 1 = Some 1 ->
  Dice.compute_dice p y = Some rows ->
  Forall (fun row => row = [None] \/ exists d, row = [Some d] /\ (0 <= d <= 1)%Q) rows.
Proof.
  intros Hc H. unfold Dice.compute_dice in H.
  apply bind_Some in H as (_ & _ & H). apply bind_Some in H as (_ & _ & H).
  injection H as <-. rewrite Hc. cbn [default].
  apply Forall_fmap, Forall_forall. intros b _. unfold compose.
  rewrite decide_True by reflexivity.
  destruct (compute_channel_range (drop 2 (shape p))
              (fun i => data p (b :: 0 :: i))
              (fun i => Qeq_bool (data y (b :: 0 :: i)) 1))
    as [Hn|(d & Hd & Hr)].
  - left. f_equal. exact Hn.
  - right. exists d. split; [f_equal; exact Hd|exact Hr].
Qed.

Lemma mean_reduction_range (rows : list (list (option Q))) :
  Forall (fun row => row = [None] \/ exists d, row = [Some d] /\ (0 <= d <= 1)%Q) rows ->
  (0 <= Dice.mean_reduction rows <= 1)%Q.
Proof.
  intros Hall. unfold Dice.mean_reduction.
  set (scored := filter (fun row => 0 < Dice.not_nans row) rows).
  assert (Hsum : (0 <= Dice.qsum (Dice.channel_mean <$> rows)
                  <= Dice.of_nat (length scored))%Q).
  { subst scored. induction Hall as [|row rows Hrow _ IH]; [split; discriminate|].
    cbn [fmap list_fmap Dice.qsum foldr].
    fold (Dice.qsum (Dice.channel_mean <$> rows)). rewrite filter_cons.
    destruct Hrow as [->|(d & -> & Hd)].
    - rewrite channel_mean_nan. rewrite decide_False by (cbn; lia). lra.
    - rewrite decide_True by (cbn; lia). cbn [length].
      rewrite of_nat_S, channel_mean_score. lra. }
  destruct (decide (0 < length scored)) as [Hn|Hn]; [|split; discriminate].
  pose proof (of_nat_pos _ Hn). split.
  - apply Qle_shift_div_l; lra.
  - apply Qle_shift_div_r; lra.
Qed.

Section OutcomeProperties.

Context (sigmoid : Q -> Q) (softmax : list Q -> list Q) (state_dict : Type)
        (state_dict_fits : UNet -> state_dict -> bool)
        (unet_eval : UNet -> state_dict -> tensor Q -> index -> Q)
        (unet_train : UNet -> state_dict -> tensor Q -> (index -> Q) * state_dict)
        (dice_of_labels : tensor Z -> tensor Q -> option (list (list (option Q))))
        (metric_value : Type)
        (Recall Precision : bool -> IgniteMetric metric_value).

Local Abbreviation iters :=
  (iterations sigmoid softmax state_dict unet_eval unet_train dice_of_labels
              metric_value Recall Precision).
Local Abbreviation run :=
  (evaluator_run sigmoid softmax state_dict unet_eval unet_train dice_of_labels
                 metric_value Recall Precision).
Local Abbreviation script :=
  (generate_output sigmoid softmax state_dict state_dict_fits unet_eval unet_train
                   dice_of_labels metric_value Recall Precision).
Local Abbreviation state := (EvalState state_dict metric_value Recall Precision).

Lemma loop_scores_range (st st' : state) (batches : list (tensor Q * tensor Q)) :
  net (model st) = the_model ->
  Forall (fun row => row = [None] \/ exists d, row = [Some d] /\ (0 <= d <= 1)%Q)
         (dice_buffer st) ->
  iters st batches = Some st' ->
  Forall (fun row => row = [None] \/ exists d, row = [Some d] /\ (0 <= d <= 1)%Q)
         (dice_buffer st').
Proof.
  revert st. induction batches as [|batch rest IH]; intros st Hnet Hbuf H.
  - injection H as <-. exact Hbuf.
  - cbn [iterations] in H. apply bind_Some in H as (st1 & H1 & H).
    apply (iteration_inv sigmoid softmax state_dict unet_eval unet_train
             dice_of_labels metric_value Recall Precision) in H1
      as (p & Hstep & Hm & Hdice & _).
    destruct (step_binary sigmoid softmax state_dict unet_eval unet_train
                _ _ _ _ Hnet Hstep) as (_ & b & Hb & Hc & _).
    cbn [fst] in Hb. subst p.
    unfold update_dice_metric in Hdice. cbn [fst snd] in Hdice.
    apply bind_Some in Hdice as (rows & Hrows & E). injection E as E.
    apply (IH st1); [rewrite Hm; exact Hnet| |exact H].
    rewrite <- E. apply Forall_app. split; [exact Hbuf|].
    apply (compute_dice_range b batch.2 rows Hc Hrows).
Qed.

(** X8. The mean Dice the script returns lies between 0 and 1. *)
Theorem returned_dice_in_unit_interval (w : World state_dict)
    (mean_dice_score : Q) (recall precision : metric_value)
    (eff : Effects metric_value) :
  script w = Some ((mean_dice_score, recall, precision), eff) ->
  (0 <= mean_dice_score <= 1)%Q.
Proof.
  intros H.
  apply (generate_output_inv sigmoid softmax state_dict state_dict_fits unet_eval
           unet_train dice_of_labels metric_value Recall Precision) in H
    as (weights & dirs & getitem & batches & st & metrics & printed & dice & rec & prec
        & r0 & r1 & gifs & _ & _ & Hrun & Hdice & _ & _ & _ & _ & _ & Hres & _).
  injection Hres as -> _ _.
  apply (evaluator_run_inv sigmoid softmax state_dict unet_eval unet_train
           dice_of_labels metric_value Recall Precision) in Hrun
    as (_ & _ & _ & Hit & _).
  apply loop_scores_range in Hit; [|reflexivity|constructor].
  unfold Dice.aggregate in Hdice. apply bind_Some in Hdice as (_ & _ & E).
  injection E as <-. apply mean_reduction_range. exact Hit.
Qed.

Lemma evaluator_run_metrics (st0 st : state) batches metrics printed :
  run st0 batches = Some (st, metrics, printed) ->
  exists recall precision,
    compute (Recall true) (recall_acc st) = Some recall
    /\ compute (Precision false) (precision_acc st) = Some precision
    /\ metrics = <["precision" := precision]> (<["recall" := recall]> ∅).
Proof.
  unfold evaluator_run. intros H.
  apply bind_Some in H as (st1 & _ & H).
  apply bind_Some in H as (recall & Hr & H).
  apply bind_Some in H as (precision & Hp & H).
  apply bind_Some in H as (l & _ & H). injection H as <- <- <-.
  exists recall, precision. auto.
Qed.

(** X9. The second and third component of the returned triple are what
    ignite's [Recall(average=True)] and [Precision(average=False)] compute
    from their accumulators at the end of the loop, in this order: the
    two are stored under different keys and are not mixed up.  The
    dictionary of metrics holds these two entries and no other. *)
Theorem returned_recall_and_precision (w : World state_dict)
    (mean_dice_score : Q) (recall precision : metric_value)
    (eff : Effects metric_value) :
  script w = Some ((mean_dice_score, recall, precision), eff) ->
  exists weights batches (st : state) metrics printed,
    run (mkEvalState (mkModule the_model weights true) [] (reset (Recall true))
                     (reset (Precision false)) [])
        batches = Some (st, metrics, printed)
    /\ compute (Recall true) (recall_acc st) = Some recall
    /\ compute (Precision false) (precision_acc st) = Some precision
    /\ dom metrics = ({[ "recall"; "precision" ]} : gset string)
    /\ (forall key, key <> "recall" -> key <> "precision" -> metrics !! key = None).
Proof.
  intros H.
  apply (generate_output_inv sigmoid softmax state_dict state_dict_fits unet_eval
           unet_train dice_of_labels metric_value Recall Precision) in H
    as (weights & dirs & getitem & batches & st & metrics & printed & dice & rec & prec
        & r0 & r1 & gifs & _ & _ & Hrun & _ & Hrec & Hprec & _ & _ & _ & Hres & _).
  injection Hres as _ -> ->.
  exists weights, batches, st, metrics, printed. split; [exact Hrun|].
  apply evaluator_run_metrics in Hrun as (r & p & Hr & Hp & ->).
  rewrite lookup_insert_ne, lookup_insert_eq in Hrec by discriminate.
  rewrite lookup_insert_eq in Hprec.
  injection Hrec as <-. injection Hprec as <-.
  split; [exact Hr|]. split; [exact Hp|]. split.
  - rewrite !dom_insert_L, dom_empty_L. set_solver.
  - intros key H1 H2. rewrite !lookup_insert_ne by congruence. apply lookup_empty.
Qed.

End OutcomeProperties.

Lemma returned_dice_in_unit_interval_example :
  exists d r p eff, example_run = Some ((d, r, p), eff) /\ (0 <= d <= 1)%Q.
Proof.
  pose proof example_run_returns as Hs.
  destruct example_run as [[[[d r] p] eff]|] eqn:E; [|discriminate].
  exists d, r, p, eff. split; [reflexivity|].
  apply (returned_dice_in_unit_interval _ _ _ _ _ _ _ _ _ _ _ _ _ _ _ E).
Defined.

Lemma returned_recall_and_precision_example :
  exists d r p eff, example_run = Some ((d, r, p), eff) /\ r = 2 /\ p = 2.
Proof.
  pose proof example_run_returns as Hs.
  destruct example_run as [[[[d r] p] eff]|] eqn:E; [|discriminate].
  exists d, r, p, eff. split; [reflexivity|].
  destruct (returned_recall_and_precision _ _ _ _ _ _ _ _ _ _ _ _ _ _ _ E)
    as (weights & batches & st & metrics & printed & _ & _ & _ & _ & _).
  clear Hs. revert E. 
  assert (Hv : (fun o : Q * nat * nat * Effects nat => (o.1.1.2, o.1.2)) <$> example_run
               = Some (2, 2)) by (vm_compute; reflexivity).
  intros E. rewrite E in Hv. cbn in Hv. injection Hv as -> ->. auto.
Defined.

(** ** The output directory and the files written *)

Section OutputProperties.

Context (sigmoid : Q -> Q) (softmax : list Q -> list Q) (state_dict : Type)
        (state_dict_fits : UNet -> state_dict -> bool)
        (unet_eval : UNet -> state_dict -> tensor Q -> index -> Q)
        (unet_train : UNet -> state_dict -> tensor Q -> (index -> Q) * state_dict)
        (dice_of_labels : tensor Z -> tensor Q -> option (list (list (option Q))))
        (metric_value : Type)
        (Recall Precision : bool -> IgniteMetric metric_value).

Local Abbreviation script :=
  (generate_output sigmoid softmax state_dict state_dict_fits unet_eval unet_train
                   dice_of_labels metric_value Recall Precision).

Lemma makedirs_exist_ok (name : string) (dirs : gset string) :
  makedirs name true dirs = Some ({[ name ]} ∪ dirs).
Proof.
  unfold makedirs. destruct (decide (name ∈ dirs)) as [Hin|Hout]; [|reflexivity].
  f_equal. symmetry. apply subseteq_union_1_L, singleton_subseteq_l. exact Hin.
Qed.

Lemma script_other_directories c n k s (d1 d2 : gset string) res eff :
  script (mkWorld c n k d1 s) = Some (res, eff) ->
  script (mkWorld c n k d2 s)
  = Some (res, mkEffects (stdout eff) ({[ path_join c "saved_gifs" ]} ∪ d2) (saved eff)).
Proof.
  unfold generate_output. cbn [cwd niftis checkpoints directories seeds]. cbv zeta.
  rewrite !makedirs_exist_ok. intros H.
  apply bind_Some in H as (weights & Hw & H). rewrite Hw. cbn [mbind option_bind].
  apply bind_Some in H as (fits & Hfits & H). rewrite Hfits. cbn [mbind option_bind].
  cbn [mbind option_bind] in H.
  apply bind_Some in H as (batches & Hload & H). rewrite Hload. cbn [mbind option_bind].
  apply bind_Some in H as ([[st metrics] printed] & Hrun & H). rewrite Hrun.
  cbn [mbind option_bind].
  apply bind_Some in H as (dice & Hdice & H). rewrite Hdice. cbn [mbind option_bind].
  apply bind_Some in H as (recall & Hrec & H). rewrite Hrec. cbn [mbind option_bind].
  apply bind_Some in H as (precision & Hprec & H). rewrite Hprec. cbn [mbind option_bind].
  apply bind_Some in H as (r0 & Hr0 & H). rewrite Hr0. cbn [mbind option_bind].
  apply bind_Some in H as (r1 & Hr1 & H). rewrite Hr1. cbn [mbind option_bind].
  apply bind_Some in H as (gifs & Hgifs & H). rewrite Hgifs. cbn [mbind option_bind].
  injection H as <- <-. reflexivity.
Qed.

(** X10. What the script returns, prints and saves does not depend on
    the directories that exist when it starts: a [saved_gifs] left by an
    earlier run does not make it fail ([exist_ok=True]). *)
Theorem existing_directories_are_harmless c n k s (d1 d2 : gset string) :
  (fun o : _ * Effects metric_value => (o.1, stdout o.2, saved o.2))
    <$> script (mkWorld c n k d1 s)
  = (fun o : _ * Effects metric_value => (o.1, stdout o.2, saved o.2))
    <$> script (mkWorld c n k d2 s).
Proof.
  destruct (script (mkWorld c n k d1 s)) as [[res eff]|] eqn:E1.
  - rewrite (script_other_directories c n k s d1 d2 res eff E1). reflexivity.
  - destruct (script (mkWorld c n k d2 s)) as [[res eff]|] eqn:E2; [|reflexivity].
    rewrite (script_other_directories c n k s d2 d1 res eff E2) in E1. discriminate.
Qed.

End OutputProperties.

Lemma append_inj (a b b' : string) : a +:+ b = a +:+ b' -> b = b'.
Proof.
  induction a as [|x a IH]; [auto|].
  change (String x a +:+ b) with (String x (a +:+ b)).
  change (String x a +:+ b') with (String x (a +:+ b')).
  intros [= H]. auto.
Qed.

Lemma path_join_saved_inj (a n n' : string) :
  path_join a (String "s" n) = path_join a (String "s" n') -> n = n'.
Proof.
  unfold path_join. cbv iota.
  destruct (bool_decide (a = "") || ends_with_slash a); intros H.
  - apply append_inj in H. congruence.
  - apply append_inj, append_inj in H. congruence.
Qed.

Section SavedFiles.

Context (sigmoid : Q -> Q) (softmax : list Q -> list Q) (state_dict : Type)
        (state_dict_fits : UNet -> state_dict -> bool)
        (unet_eval : UNet -> state_dict -> tensor Q -> index -> Q)
        (unet_train : UNet -> state_dict -> tensor Q -> (index -> Q) * state_dict)
        (dice_of_labels : tensor Z -> tensor Q -> option (list (list (option Q))))
        (metric_value : Type)
        (Recall Precision : bool -> IgniteMetric metric_value).

Local Abbreviation script :=
  (generate_output sigmoid softmax state_dict state_dict_fits unet_eval unet_train
                   dice_of_labels metric_value Recall Precision).

(** X11. The four animations go to four different files: no animation
    overwrites another. *)
Theorem saved_files_are_distinct (w : World state_dict) res
    (eff : Effects metric_value) :
  script w = Some (res, eff) ->
  length (saved eff) = 4 /\ NoDup ((saved eff).*1).
Proof.
  intros H.
  apply (generate_output_inv sigmoid softmax state_dict state_dict_fits unet_eval
           unet_train dice_of_labels metric_value Recall Precision) in H
    as (weights & dirs & getitem & batches & st & metrics & printed & dice & rec & prec
        & r0 & r1 & gifs & _ & _ & _ & _ & _ & _ & _ & _ & Hgifs & _ & ->).
  cbn [saved]. cbn [imap mapM] in Hgifs.
  apply bind_Some in Hgifs as ([f0 a0] & H0 & Hgifs).
  apply bind_Some in Hgifs as (l1 & Hgifs & E0). injection E0 as <-.
  apply bind_Some in Hgifs as ([f1 a1] & H1 & Hgifs).
  apply bind_Some in Hgifs as (l2 & Hgifs & E1). injection E1 as <-.
  apply bind_Some in Hgifs as ([f2 a2] & H2 & Hgifs).
  apply bind_Some in Hgifs as (l3 & Hgifs & E2). injection E2 as <-.
  apply bind_Some in Hgifs as ([f3 a3] & H3 & Hgifs).
  apply bind_Some in Hgifs as (l4 & Hgifs & E3). injection E3 as <-.
  injection Hgifs as <-.
  apply gif_saved in H0 as [-> _]. apply gif_saved in H1 as [-> _].
  apply gif_saved in H2 as [-> _]. apply gif_saved in H3 as [-> _].
  split; [reflexivity|]. cbn [fmap list_fmap fst].
  repeat (apply NoDup_cons; split;
          [rewrite ?elem_of_cons, elem_of_nil;
           intros Hin; repeat (destruct Hin as [Hin|Hin]; [apply path_join_saved_inj in Hin; discriminate|]);
           exact Hin|]).
  apply NoDup_nil. exact I.
Qed.

End SavedFiles.

Lemma saved_files_are_distinct_example :
  exists res eff, example_run = Some (res, eff) /\ NoDup ((saved eff).*1).
Proof.
  pose proof example_run_returns as Hs.
  destruct example_run as [[res eff]|] eqn:E; [|discriminate].
  exists res, eff. split; [reflexivity|].
  apply (saved_files_are_distinct _ _ _ _ _ _ _ _ _ _ _ _ _ E).
Defined.

(** ** What an animation shows *)

Lemma displayed_tensor {A} (r : tensor A) (X Y Z : nat) :
  shape r = [1; X; Y; Z] -> X <> 1 -> Y <> 1 -> Z <> 1 ->
  shape (T (squeeze r)) = [Z; Y; X]
  /\ forall k y x, data (T (squeeze r)) [k; y; x] = data r [0; x; y; k].
Proof.
  intros Hs HX HY HZ. unfold T, squeeze. cbn [shape data]. rewrite Hs. split.
  - rewrite filter_cons, decide_False by (intros H; apply H; reflexivity).
    rewrite filter_cons, decide_True by exact HX.
    rewrite filter_cons, decide_True by exact HY.
    rewrite filter_cons, decide_True by exact HZ.
    reflexivity.
  - intros k y x. change (reverse [k; y; x]) with [x; y; k].
    cbn [unsqueezed]. rewrite decide_True by reflexivity.
    rewrite !decide_False by assumption. reflexivity.
Qed.

Lemma gif_generator_frames (img : ndarray) (n : nat) (rest : list nat) :
  ndarray_shape img = n :: rest -> 0 < n ->
  exists ani,
    gif_generator img = Some ani
    /\ length (frames ani) = n
    /\ forall k, k < n ->
                 frames ani !! k
                 = Some (mkFrame ("Slice " +:+ str k) (ndarray_select0 k img) "bone").
Proof.
  intros Hs Hn. unfold gif_generator. rewrite Hs. cbn [head mbind option_bind].
  rewrite option_guard_True by exact Hn. cbn [mbind option_bind].
  eexists. split; [reflexivity|]. cbn [frames].
  rewrite length_fmap, length_seq. split; [reflexivity|].
  intros k Hk. rewrite list_lookup_fmap, lookup_seq_lt by exact Hk. reflexivity.
Qed.

(** X12. Of a stored tensor of shape (1, X, Y, Z) with no other axis of
    extent 1, the animation has Z frames: frame [k] is the slice at
    position [k] of the last axis, a Y x X picture whose pixel in row [y]
    and column [x] is the voxel (x, y, k).  This holds for the predicted
    masks (integers) and for the ground truths (floats) alike. *)
Theorem animation_shows_slices_of_last_axis
    (mask : tensor Z) (truth : tensor Q) (X Y Z : nat) :
  X <> 1 -> Y <> 1 -> Z <> 1 -> 0 < Z ->
  (shape mask = [1; X; Y; Z] ->
   exists ani,
     gif_generator (IntArray (T (squeeze mask))) = Some ani
     /\ length (frames ani) = Z
     /\ forall k, k < Z ->
          exists t, frames ani !! k
                    = Some (mkFrame ("Slice " +:+ str k) (IntArray t) "bone")
                    /\ shape t = [Y; X]
                    /\ forall y x, data t [y; x] = data mask [0; x; y; k])
  /\ (shape truth = [1; X; Y; Z] ->
      exists ani,
        gif_generator (FloatArray (T (squeeze truth))) = Some ani
        /\ length (frames ani) = Z
        /\ forall k, k < Z ->
             exists t, frames ani !! k
                       = Some (mkFrame ("Slice " +:+ str k) (FloatArray t) "bone")
                       /\ shape t = [Y; X]
                       /\ forall y x, data t [y; x] = data truth [0; x; y; k]).
Proof.
  intros HX HY HZ Hpos. split; intros Hs.
  - destruct (displayed_tensor mask X Y Z Hs HX HY HZ) as [Hsh Hd].
    destruct (gif_generator_frames (IntArray (T (squeeze mask))) Z [Y; X] Hsh Hpos)
      as (ani & Hani & Hlen & Hfr).
    exists ani. split; [exact Hani|]. split; [exact Hlen|].
    intros k Hk. eexists. split; [apply (Hfr k Hk)|].
    cbn [select0 shape data]. rewrite Hsh. split; [reflexivity|].
    intros y x. apply Hd.
  - destruct (displayed_tensor truth X Y Z Hs HX HY HZ) as [Hsh Hd].
    destruct (gif_generator_frames (FloatArray (T (squeeze truth))) Z [Y; X] Hsh Hpos)
      as (ani & Hani & Hlen & Hfr).
    exists ani. split; [exact Hani|]. split; [exact Hlen|].
    intros k Hk. eexists. split; [apply (Hfr k Hk)|].
    cbn [select0 shape data]. rewrite Hsh. split; [reflexivity|].
    intros y x. apply Hd.
Qed.

Lemma animation_shows_slices_of_last_axis_example :
  exists ani,
    gif_generator (FloatArray (T (squeeze (voxel_mask [1; 2; 3; 4] [0; 1; 2; 3])))) = Some ani
    /\ length (frames ani) = 4.
Proof.
  destruct (animation_shows_slices_of_last_axis
              (mkTensor [1; 2; 3; 4] (fun _ => 0%Z))
              (voxel_mask [1; 2; 3; 4] [0; 1; 2; 3]) 2 3 4) as [_ H]; try lia.
  destruct (H eq_refl) as (ani & Hani & Hlen & _).
  exists ani. split; [exact Hani|exact Hlen].
Defined.

(** ** The loader and the loop over any number of pairs *)

Lemma batched_one {A} (l : list A) : batched 1 [] l = (fun x => [x]) <$> l.
Proof.
  induction l as [|x l IH]; [reflexivity|].
  cbn [batched app]. rewrite decide_True by (cbn; lia). rewrite IH. reflexivity.
Qed.

Lemma loader_singletons (len : nat) (getitem : nat -> option (tensor Q * tensor Q))
    (batches : list (tensor Q * tensor Q)) :
  DataLoader len getitem 1 = Some batches ->
  Forall2 (fun k b => exists x y, getitem k = Some (x, y)
                                  /\ stack [x] = Some b.1 /\ stack [y] = Some b.2)
          (seq 0 len) batches.
Proof.
  unfold DataLoader. rewrite batched_one. intros H.
  apply mapM_Some_1, Forall2_fmap_l in H.
  eapply Forall2_impl; [exact H|]. clear H. intros k b H. cbn [mapM] in H.
  apply bind_Some in H as (items & Hi & H).
  apply bind_Some in Hi as ([x y] & Hg & Hi). injection Hi as <-.
  apply bind_Some in H as (bx & Hx & H).
  apply bind_Some in H as (by_ & Hy & H). injection H as <-.
  exists x, y. auto.
Qed.

(** X13. With [batch_size=1] the loader fails exactly when one of the
    items fails to load.  Otherwise it yields one batch per item, in the
    order of the items, and a batch is its item under a leading axis of
    extent 1. *)
Theorem loader_yields_the_items_in_order
    (len : nat) (getitem : nat -> option (tensor Q * tensor Q)) :
  (is_Some (DataLoader len getitem 1) <-> forall k, k < len -> is_Some (getitem k))
  /\ forall batches,
       DataLoader len getitem 1 = Some batches ->
       length batches = len
       /\ forall k, k < len ->
            exists x y b,
              getitem k = Some (x, y) /\ batches !! k = Some b
              /\ shape b.1 = 1 :: shape x /\ shape b.2 = 1 :: shape y
              /\ forall i, data b.1 (0 :: i) = data x i /\ data b.2 (0 :: i) = data y i.
Proof.
  split.
  - split.
    + intros [batches H] k Hk. apply loader_singletons in H.
      destruct (Forall2_lookup_l _ _ _ k k H) as (b & _ & x & y & Hg & _).
      { apply lookup_seq. lia. }
      rewrite Hg. eauto.
    + intros H. unfold DataLoader. rewrite batched_one.
      apply mapM_is_Some_2, Forall_fmap, Forall_forall. intros k Hk.
      apply elem_of_seq in Hk. destruct (H k ltac:(lia)) as [[x y] Hg].
      unfold compose. cbn [mapM]. rewrite Hg. cbn [mbind option_bind mret option_ret fmap list_fmap].
      rewrite !stack_singleton. cbn [mbind option_bind]. eauto.
  - intros batches H. apply loader_singletons in H. split.
    + apply Forall2_length in H. rewrite length_seq in H. auto.
    + intros k Hk.
      destruct (Forall2_lookup_l _ _ _ k k H) as (b & Hb & x & y & Hg & Hx & Hy).
      { apply lookup_seq. lia. }
      rewrite stack_singleton in Hx, Hy. destruct b as [bx by_]. cbn [fst snd] in *.
      injection Hx as <-. injection Hy as <-.
      exists x, y. eexists. split; [exact Hg|]. split; [exact Hb|].
      cbn [fst snd shape data]. auto.
Qed.

Lemma loader_yields_the_items_in_order_example :
  exists batches, example_loader = Some batches /\ length batches = 2.
Proof.
  destruct (loader_yields_the_items_in_order 2
              (ArrayDataset_getitem
                 ["/work/data/volume-20.nii"; "/work/data/volume-25.nii"]
                 (image_transforms (niftis example_world))
                 ["/work/data/new-segmentation-20.nii"; "/work/data/new-segmentation-25.nii"]
                 (seg_transforms (niftis example_world))
                 (seeds example_world))) as [_ H].
  exists example_batches. split; [exact example_loader_batches|].
  apply (H example_batches example_loader_batches).
Defined.

Section PairsProperties.

Context (sigmoid : Q -> Q) (softmax : list Q -> list Q) (state_dict : Type)
        (unet_eval : UNet -> state_dict -> tensor Q -> index -> Q)
        (unet_train : UNet -> state_dict -> tensor Q -> (index -> Q) * state_dict)
        (dice_of_labels : tensor Z -> tensor Q -> option (list (list (option Q))))
        (metric_value : Type)
        (Recall Precision : bool -> IgniteMetric metric_value).

Local Abbreviation step :=
  (evaluation_step sigmoid softmax state_dict unet_eval unet_train).
Local Abbreviation iter :=
  (iteration sigmoid softmax state_dict unet_eval unet_train dice_of_labels
             metric_value Recall Precision).
Local Abbreviation iters :=
  (iterations sigmoid softmax state_dict unet_eval unet_train dice_of_labels
              metric_value Recall Precision).
Local Abbreviation state := (EvalState state_dict metric_value Recall Precision).

(** The record of one pair under the script's network: the segmentation
    as it was loaded, and per voxel 1 where the sigmoid of the network's
    output for the image exceeds 1/2. *)
Lemma record_of_item (st st' : state) x y bx by_ :
  net (model st) = the_model ->
  stack [x] = Some bx -> stack [y] = Some by_ ->
  iter st (bx, by_) = Some st' ->
  net (model st') = the_model /\ params (model st') = params (model st)
  /\ exists r,
       store_predictions st' = store_predictions st ++ [r]
       /\ shape r.2 = shape y /\ (forall i, data r.2 i = data y i)
       /\ shape r.1 = 1 :: drop 1 (shape x)
       /\ forall i, data r.1 i
                    = if Qgtb (sigmoid (unet_eval the_model (params (model st)) bx (0 :: i)))
                              (1 # 2)
                      then 1%Z else 0%Z.
Proof.
  intros Hnet Hx Hy H.
  destruct (one_record_per_item sigmoid softmax state_dict unet_eval unet_train
              dice_of_labels metric_value Recall Precision _ _ _ _ _ _ Hx Hy H)
    as (p & r & Hstep & Hm & Hst & Hr & Hsh & Hd).
  destruct (step_binary sigmoid softmax state_dict unet_eval unet_train
              _ _ _ _ Hnet Hstep) as (_ & q & Hq & _ & Hqv).
  cbn [fst snd] in Hq, Hqv. subst p.
  rewrite Hm. cbn [net params eval]. split; [exact Hnet|]. split; [reflexivity|].
  exists r. split; [exact Hst|]. split; [exact Hsh|]. split; [exact Hd|].
  assert (Hbx : shape bx = 1 :: shape x).
  { rewrite stack_singleton in Hx. injection Hx as <-. reflexivity. }
  rewrite Hr, Hqv.
  rewrite (forward_eval state_dict unet_eval unet_train). cbn [snd].
  rewrite (forward_eval state_dict unet_eval unet_train). cbn [fst].
  rewrite Hnet, Hbx. split; reflexivity.
Qed.

Lemma records_of_items (getitem : nat -> option (tensor Q * tensor Q))
    (ks : list nat) (batches : list (tensor Q * tensor Q)) (weights : state_dict) :
  Forall2 (fun k b => exists x y, getitem k = Some (x, y)
                                  /\ stack [x] = Some b.1 /\ stack [y] = Some b.2)
          ks batches ->
  forall st st' : state,
    net (model st) = the_model -> params (model st) = weights ->
    iters st batches = Some st' ->
    exists rs,
      store_predictions st' = store_predictions st ++ rs
      /\ Forall2 (fun k r =>
                    exists x y bx,
                      getitem k = Some (x, y) /\ stack [x] = Some bx
                      /\ shape r.2 = shape y /\ (forall i, data r.2 i = data y i)
                      /\ shape r.1 = 1 :: drop 1 (shape x)
                      /\ forall i, data r.1 i
                                   = if Qgtb (sigmoid (unet_eval the_model weights bx (0 :: i)))
                                             (1 # 2)
                                     then 1%Z else 0%Z)
                 ks rs.
Proof.
  induction 1 as [|k [bx by_] ks batches (x & y & Hg & Hx & Hy) _ IH];
    intros st st' Hnet Hp Hrun.
  - injection Hrun as <-. exists []. rewrite app_nil_r. split; [reflexivity|constructor].
  - cbn [iterations] in Hrun. apply bind_Some in Hrun as (st1 & H1 & Hrun).
    cbn [fst snd] in Hx, Hy.
    destruct (record_of_item _ _ _ _ _ _ Hnet Hx Hy H1)
      as (Hnet1 & Hp1 & r & Hst & Hsh & Hd & Hsh1 & Hd1).
    rewrite Hp in Hp1, Hd1.
    destruct (IH st1 st' Hnet1 Hp1 Hrun) as (rs & Hrs & Hall).
    exists (r :: rs). split.
    + rewrite Hrs, Hst, <- app_assoc. reflexivity.
    + constructor; [|exact Hall]. exists x, y, bx. auto 10.
Qed.

(** X14. Over a loader with [batch_size=1] the loop stores one record per
    pair, whatever the number of pairs and whatever was stored before:
    the record of pair [k] comes [k] places after what was there, holds
    the segmentation of pair [k] as it was loaded, and holds 1 exactly at
    the voxels where the sigmoid of the network's output for image [k],
    under the weights the loop started with, exceeds 1/2. *)
Theorem records_follow_the_pairs
    (len : nat) (getitem : nat -> option (tensor Q * tensor Q))
    (batches : list (tensor Q * tensor Q)) (st st' : state) :
  net (model st) = the_model ->
  DataLoader len getitem 1 = Some batches ->
  iters st batches = Some st' ->
  length (store_predictions st') = length (store_predictions st) + len
  /\ forall k, k < len ->
       exists x y bx r,
         getitem k = Some (x, y) /\ stack [x] = Some bx
         /\ store_predictions st' !! (length (store_predictions st) + k) = Some r
         /\ shape r.2 = shape y /\ (forall i, data r.2 i = data y i)
         /\ shape r.1 = 1 :: drop 1 (shape x)
         /\ forall i, (data r.1 i = 1%Z \/ data r.1 i = 0%Z)
                      /\ (data r.1 i = 1%Z
                          <-> (1 # 2 < sigmoid (unet_eval the_model (params (model st))
                                                          bx (0%nat :: i)))%Q).
Proof.
  intros Hnet Hload Hrun. apply loader_singletons in Hload.
  destruct (records_of_items _ _ _ (params (model st)) Hload st st' Hnet eq_refl Hrun)
    as (rs & Hrs & Hall).
  pose proof (Forall2_length _ _ _ Hall) as Hlen. rewrite length_seq in Hlen.
  split; [rewrite Hrs, length_app; lia|].
  intros k Hk.
  destruct (Forall2_lookup_l _ _ _ k k Hall)
    as (r & Hr & x & y & bx & Hg & Hx & Hsh & Hd & Hsh1 & Hd1).
  { apply lookup_seq. lia. }
  exists x, y, bx, r. split; [exact Hg|]. split; [exact Hx|]. split.
  { rewrite Hrs, lookup_app_r by lia.
    replace (length (store_predictions st) + k - length (store_predictions st)) with k by lia.
    exact Hr. }
  split; [exact Hsh|]. split; [exact Hd|]. split; [exact Hsh1|].
  intros i. rewrite Hd1.
  destruct (Qgtb _ _) eqn:E.
  - split; [left; reflexivity|]. split; [intros _|reflexivity].
    apply Qgtb_lt. exact E.
  - split; [right; reflexivity|]. split; [discriminate|].
    intros H. apply Qgtb_lt in H. congruence.
Qed.

End PairsProperties.

Lemma records_follow_the_pairs_example :
  length (store_predictions example_final) = 2.
Proof.
  apply (records_follow_the_pairs example_sigmoid example_softmax unit
           example_net example_train (fun _ _ => None) nat counting_metric
           counting_metric 2 _ example_batches example_start example_final
           eq_refl example_loader_batches example_loop).
Defined.

(** ** What a run needs, and what it does not depend on *)

Lemma chains_need_the_file (files : gmap string Nifti) (R : rng) (p : string) :
  (is_Some (image_transforms files R p) -> is_Some (files !! p))
  /\ (is_Some (seg_transforms files R p) -> is_Some (files !! p)).
Proof.
  rewrite image_transforms_eq, seg_transforms_eq.
  destruct (files !! p) as [f|]; cbn [mbind option_bind]; split; intros [? H];
    eauto; discriminate.
Qed.

Lemma getitem_needs_the_files (files : gmap string Nifti) (imgs segs : list string)
    (seeds : nat -> rng) (k : nat) :
  is_Some (ArrayDataset_getitem imgs (image_transforms files)
                                segs (seg_transforms files) seeds k) ->
  exists ip sp, imgs !! k = Some ip /\ segs !! k = Some sp
                /\ is_Some (files !! ip) /\ is_Some (files !! sp).
Proof.
  intros [xy H]. unfold ArrayDataset_getitem in H.
  apply bind_Some in H as (ip & Hip & H).
  apply bind_Some in H as (sp & Hsp & H).
  apply bind_Some in H as (x & Hx & H).
  apply bind_Some in H as (y & Hy & _).
  exists ip, sp. split; [exact Hip|]. split; [exact Hsp|].
  destruct (chains_need_the_file files (seeds k) ip) as [Hi _].
  destruct (chains_need_the_file files (seeds k) sp) as [_ Hs].
  split; [apply Hi; rewrite Hx|apply Hs; rewrite Hy]; eauto.
Qed.

Lemma getitem_ignores_the_seeds (files : gmap string Nifti) (imgs segs : list string)
    (s1 s2 : nat -> rng) (k : nat) :
  ArrayDataset_getitem imgs (image_transforms files) segs (seg_transforms files) s1 k
  = ArrayDataset_getitem imgs (image_transforms files) segs (seg_transforms files) s2 k.
Proof.
  unfold ArrayDataset_getitem.
  destruct (imgs !! k) as [ip|]; [|reflexivity].
  destruct (segs !! k) as [sp|]; [|reflexivity].
  cbn [mbind option_bind].
  rewrite (image_transforms_eq files (s1 k)), (image_transforms_eq files (s2 k)).
  rewrite (seg_transforms_eq files (s1 k)), (seg_transforms_eq files (s2 k)).
  reflexivity.
Qed.

Lemma mapM_pointwise {A B} (f g : A -> option B) (l : list A) :
  (forall a, f a = g a) -> mapM f l = mapM g l.
Proof.
  intros H. induction l as [|a l IH]; [reflexivity|].
  cbn [mapM]. rewrite H, IH. reflexivity.
Qed.

Lemma DataLoader_pointwise (len n : nat) (g1 g2 : nat -> option (tensor Q * tensor Q)) :
  (forall k, g1 k = g2 k) -> DataLoader len g1 n = DataLoader len g2 n.
Proof.
  intros H. unfold DataLoader. apply mapM_pointwise. intros idxs.
  rewrite (mapM_pointwise g1 g2 idxs H). reflexivity.
Qed.

Section RunRequirements.

Context (sigmoid : Q -> Q) (softmax : list Q -> list Q) (state_dict : Type)
        (state_dict_fits : UNet -> state_dict -> bool)
        (unet_eval : UNet -> state_dict -> tensor Q -> index -> Q)
        (unet_train : UNet -> state_dict -> tensor Q -> (index -> Q) * state_dict)
        (dice_of_labels : tensor Z -> tensor Q -> option (list (list (option Q))))
        (metric_value : Type)
        (Recall Precision : bool -> IgniteMetric metric_value).

Local Abbreviation script :=
  (generate_output sigmoid softmax state_dict state_dict_fits unet_eval unet_train
                   dice_of_labels metric_value Recall Precision).

(** X15. A run that returns has found the checkpoint [models/model.pth]
    under the working directory, with parameters that fit the network,
    and the four volumes under [data]; it leaves the directory
    [saved_gifs] behind, next to the directories that were there. *)
Theorem a_run_needs_checkpoint_and_volumes (w : World state_dict)
    (res : Q * metric_value * metric_value) (eff : Effects metric_value) :
  script w = Some (res, eff) ->
  (exists weights,
     checkpoints w !! path_join (path_join (cwd w) "models") "model.pth" = Some weights
     /\ state_dict_fits the_model weights = true)
  /\ (forall name,
        name ∈ ["volume-20.nii"; "volume-25.nii";
                "new-segmentation-20.nii"; "new-segmentation-25.nii"] ->
        is_Some (niftis w !! path_join (path_join (cwd w) "data") name))
  /\ directories_after eff = {[ path_join (cwd w) "saved_gifs" ]} ∪ directories w.
Proof.
  unfold generate_output. cbv zeta. rewrite makedirs_exist_ok. intros H.
  apply bind_Some in H as (weights & Hw & H).
  apply bind_Some in H as (Hfits & _ & H).
  cbn [mbind option_bind] in H.
  apply bind_Some in H as (batches & Hload & H).
  apply bind_Some in H as ([[st metrics] printed] & _ & H).
  apply bind_Some in H as (dice & _ & H).
  apply bind_Some in H as (recall & _ & H).
  apply bind_Some in H as (precision & _ & H).
  apply bind_Some in H as (r0 & _ & H).
  apply bind_Some in H as (r1 & _ & H).
  apply bind_Some in H as (gifs & _ & H).
  injection H as _ <-. cbn [directories_after].
  split; [exists weights; split; [exact Hw|exact Hfits]|].
  split; [|reflexivity].
  apply loader_singletons in Hload.
  assert (Hitem : forall k, k < 2 ->
            exists ip sp,
              [path_join (path_join (cwd w) "data") "volume-20.nii";
               path_join (path_join (cwd w) "data") "volume-25.nii"] !! k = Some ip
              /\ [path_join (path_join (cwd w) "data") "new-segmentation-20.nii";
                  path_join (path_join (cwd w) "data") "new-segmentation-25.nii"] !! k
                 = Some sp
              /\ is_Some (niftis w !! ip) /\ is_Some (niftis w !! sp)).
  { intros k Hk.
    destruct (Forall2_lookup_l _ _ _ k k Hload) as (b & _ & x & y & Hg & _).
    { apply (lookup_seq 0 2 k). lia. }
    apply (getitem_needs_the_files (niftis w) _ _ (seeds w) k). rewrite Hg. eauto. }
  destruct (Hitem 0 ltac:(lia)) as (ip0 & sp0 & Hi0 & Hs0 & Hfi0 & Hfs0).
  destruct (Hitem 1 ltac:(lia)) as (ip1 & sp1 & Hi1 & Hs1 & Hfi1 & Hfs1).
  injection Hi0 as <-. injection Hs0 as <-. injection Hi1 as <-. injection Hs1 as <-.
  intros name Hname.
  repeat (apply elem_of_cons in Hname as [->|Hname]); try assumption.
  inversion Hname.
Qed.

(** X16. No random state reaches the outcome: the crops are taken at the
    centre and at a fixed size, so two runs in the same world return,
    print and save the same whatever the random states handed to the
    transforms. *)
Theorem a_run_ignores_the_random_state c n k d (s1 s2 : nat -> rng) :
  script (mkWorld c n k d s1) = script (mkWorld c n k d s2).
Proof.
  unfold generate_output. cbn [cwd niftis checkpoints directories seeds]. cbv zeta.
  rewrite (DataLoader_pointwise _ 1 _ _
             (getitem_ignores_the_seeds n
                [path_join (path_join c "data") "volume-20.nii";
                 path_join (path_join c "data") "volume-25.nii"]
                [path_join (path_join c "data") "new-segmentation-20.nii";
                 path_join (path_join c "data") "new-segmentation-25.nii"] s1 s2)).
  reflexivity.
Qed.

End RunRequirements.

Lemma a_run_needs_checkpoint_and_volumes_example :
  is_Some (niftis example_world !! "/work/data/new-segmentation-25.nii").
Proof.
  pose proof (default_of_Some example_run
                (0%Q, 0, 0, mkEffects [] ∅ []) example_run_returns) as E.
  destruct (default _ example_run) as [res eff].
  destruct (a_run_needs_checkpoint_and_volumes example_sigmoid example_softmax unit
              (fun _ _ => true) example_net example_train (fun _ _ => None) nat
              counting_metric counting_metric example_world res eff E) as (_ & H & _).
  apply (H "new-segmentation-25.nii").
  repeat first [apply list_elem_of_here | apply list_elem_of_further].
Defined.
